(** * RUM tool handlers of mcp-server-datadog (src/tools/rum/tool.ts)

    A shallow embedding of the attribute path resolver [getValueByPath], of
    the reduce-based resolver of [get_rum_page_performance], of the grouping
    loop of [get_rum_grouped_event_count] and of the five handlers, over a
    model of the JavaScript values they receive from the Datadog client. *)

From Stdlib Require Import Ascii String Floats.
From stdpp Require Import gmap strings list fin_maps pretty.

Set Warnings "-register-all".

Local Open Scope string_scope.
Local Open Scope list_scope.
Local Open Scope nat_scope.

(** ** JavaScript values *)

(** What a [throw] carries: the [TypeError] the engine raises when a property
    of [null] or [undefined] is read (or a conversion fails), and
    [new Error(message)]. The [RangeError] of an engine that runs out of
    stack (a recursion too deep, a call with too many arguments) is left
    out: the evaluations below are those within the limits of the engine. *)
Inductive exn : Type :=
| TypeError
| Error (message : string).

(** The completion of an evaluation: a value, or an exception on its way to
    the caller. *)
Inductive completion (A : Type) : Type :=
| Normal (a : A)
| Throw (e : exn).
Arguments Normal {A} a.
Arguments Throw {A} e.

(** Sequencing, written [x ← c; k]: an exception skips the rest. *)
#[export] Instance completion_bind : MBind completion := λ A B k c,
  match c with
  | Normal a => k a
  | Throw e => Throw e
  end.

(** The values of type [unknown] that the resolvers walk through. Numbers are
    IEEE 754 doubles; strings are sequences of code units, here of those
    below 256. Arrays and objects carry the identity [ref] of the heap object
    (what [===] and [Set] compare) besides their own properties; a [VBuiltin]
    is an object of the engine (a prototype method, a constructor, a
    prototype object) that a read through the prototype chain can reach. *)
Inductive value : Type :=
| VUndefined
| VNull
| VBool (b : bool)
| VNumber (n : float)
| VString (s : string)
| VArray (ref : positive) (elems : list value)
| VObject (ref : positive) (props : list (string * value))
| VBuiltin (name : string).

(** The part of the engine that the source relies on and does not define.
    Where the engine can fail it throws a [TypeError], written [None]. *)
Class Runtime : Type := {
  (** [inherited v key]: the read of [key] on the prototype chain of [v], for
      a [key] that is not an own property of [v]: [undefined] when the chain
      has none, [None] when an accessor of the chain throws. For a
      [VBuiltin], all of its properties. *)
  inherited : value → string → option value;
  (** [Number::toString] *)
  Number_toString : float → string;
  (** [ToString] of an array, an object or a built-in: [ToPrimitive] with hint
      string, which calls [toString] and [valueOf] and throws when neither
      gives a primitive. *)
  Object_toString : value → option string;
}.

(** The completion of an operation of the engine. *)
Definition or_TypeError {A : Type} (o : option A) : completion A :=
  match o with
  | Some a => Normal a
  | None => Throw TypeError
  end.

(** [ToBoolean]: what [if (v)], [!v] and [v ? a : b] test. *)
Definition ToBoolean (v : value) : bool :=
  match v with
  | VUndefined | VNull => false
  | VBool b => b
  | VNumber n => negb ((n =? 0)%float || is_nan n)
  | VString s => negb (bool_decide (s = ""))
  | VArray _ _ | VObject _ _ | VBuiltin _ => true
  end.

(** [v === undefined] *)
Definition is_undefined (v : value) : bool :=
  match v with
  | VUndefined => true
  | _ => false
  end.

(** [v == null]: [null] or [undefined]. *)
Definition is_nullish (v : value) : bool :=
  match v with
  | VUndefined | VNull => true
  | _ => false
  end.

(** [SameValueZero], the equality of [Set] and [Map] keys. *)
Definition SameValueZero (x y : value) : bool :=
  match x, y with
  | VUndefined, VUndefined | VNull, VNull => true
  | VBool a, VBool b => bool_decide (a = b)
  | VNumber a, VNumber b => (a =? b)%float || (is_nan a && is_nan b)
  | VString a, VString b => bool_decide (a = b)
  | VArray r _, VArray r' _ | VObject r _, VObject r' _ => bool_decide (r = r')
  | VBuiltin a, VBuiltin b => bool_decide (a = b)
  | _, _ => false
  end.

(** The own property [key] of an object, first entry first. *)
Fixpoint own_property (key : string) (props : list (string * value)) : option value :=
  match props with
  | [] => None
  | (k, v) :: rest => if bool_decide (k = key) then Some v else own_property key rest
  end.

(** A property key that is a canonical array index ("0", "7", "12", never
    "07" or "+1"), as a number. *)
Definition digit_of (c : ascii) : option N :=
  let n := N_of_ascii c in
  if ((48 <=? n) && (n <=? 57))%N then Some (n - 48)%N else None.

Fixpoint digits_value (s : string) (acc : N) : option N :=
  match s with
  | EmptyString => Some acc
  | String c rest =>
      match digit_of c with
      | Some d => digits_value rest (10 * acc + d)%N
      | None => None
      end
  end.

Definition array_index (key : string) : option nat :=
  match key with
  | EmptyString => None
  | String c rest =>
      if bool_decide (c = "0"%char) && negb (bool_decide (rest = ""))
      then None
      else N.to_nat <$> digits_value key 0
  end.

(** A length, as a number. *)
Definition Number_of_nat (n : nat) : float :=
  PrimFloat.of_uint63 (Uint63.of_Z (Z.of_nat n)).

(** The character of [s] at position [i], as a string of length one. *)
Definition char_at (s : string) (i : nat) : option string :=
  (λ c, String c EmptyString) <$> String.get i s.

Section WithRuntime.
Context `{RT : Runtime}.

(** [v[key]]: reading a property of [null] or [undefined] throws a
    [TypeError]; an object answers with its own property, an array or a
    string with its length or the element at an index; everything else comes
    from the prototype chain. *)
Definition Get (v : value) (key : string) : completion value :=
  match v with
  | VUndefined | VNull => Throw TypeError
  | VObject _ props =>
      match own_property key props with
      | Some x => Normal x
      | None => or_TypeError (inherited v key)
      end
  | VArray _ elems =>
      if bool_decide (key = "length") then Normal (VNumber (Number_of_nat (length elems)))
      else match array_index key ≫= (elems !!.) with
           | Some x => Normal x
           | None => or_TypeError (inherited v key)
           end
  | VString s =>
      if bool_decide (key = "length") then Normal (VNumber (Number_of_nat (String.length s)))
      else match array_index key ≫= char_at s with
           | Some x => Normal (VString x)
           | None => or_TypeError (inherited v key)
           end
  | VBool _ | VNumber _ | VBuiltin _ => or_TypeError (inherited v key)
  end.

(** [String(v)] *)
Definition js_String (v : value) : completion string :=
  match v with
  | VUndefined => Normal "undefined"
  | VNull => Normal "null"
  | VBool true => Normal "true"
  | VBool false => Normal "false"
  | VNumber n => Normal (Number_toString n)
  | VString s => Normal s
  | VArray _ _ | VObject _ _ | VBuiltin _ => or_TypeError (Object_toString v)
  end.

(** ** The path resolver (tool.ts, lines 280-301) *)

(** [{ value: unknown; found: boolean }] *)
Record resolution : Type := { value_of : value; found : bool }.

(** The recursion of [getValueByPath] on the segments that remain from
    [index] on: [index >= path.length] is the empty list, [path[index]] its
    head, [index + 1] its tail. The source makes one call for each segment;
    the depth at which an engine gives up is not modelled. *)
Fixpoint getValueByPath_from (obj : value) (rest : list string) : completion resolution :=
  match rest with
  | [] => Normal {| value_of := obj; found := true |}
  | key :: rest' =>
      x ← Get obj key;
      if is_undefined x then Normal {| value_of := VNull; found := false |}
      else getValueByPath_from x rest'
  end.

Definition getValueByPath (obj : value) (path : list string) (index : nat)
    : completion resolution :=
  getValueByPath_from obj (drop index path).

(** [metricNameParts.reduce((acc, part) => (acc ? acc[part] : undefined),
    event.attributes.attributes)] (tool.ts, lines 206-209): [reduce] folds the
    callback over the parts from the left, starting from the attribute map. *)
Definition reduce_step (acc : value) (part : string) : completion value :=
  if ToBoolean acc then Get acc part else Normal VUndefined.

Fixpoint reduce_path (acc : value) (parts : list string) : completion value :=
  match parts with
  | [] => Normal acc
  | part :: parts' =>
      acc' ← reduce_step acc part;
      reduce_path acc' parts'
  end.

End WithRuntime.

(** [s.split(sep)] for a separator of one character: the pieces between the
    separators, [[""]] for the empty string. *)
Fixpoint split (sep : ascii) (s : string) : list string :=
  match s with
  | EmptyString => [EmptyString]
  | String c rest =>
      if bool_decide (c = sep) then EmptyString :: split sep rest
      else match split sep rest with
           | [] => [String c EmptyString]
           | seg :: segs => String c seg :: segs
           end
  end.

(** ** What the Datadog client hands over *)

(** [RUMEventAttributes]: the [attributes] map of an event, of type
    [{ [key: string]: any }], [VUndefined] when the field is absent. *)
Record RUMEventAttributes : Type := { attributes : value }.

(** [RUMEvent]: only its optional [attributes] field is read. *)
Record RUMEvent : Type := { event_attributes : option RUMEventAttributes }.

(** [event.attributes?.attributes] *)
Definition optional_attributes (event : RUMEvent) : value :=
  match event_attributes event with
  | None => VUndefined
  | Some a => attributes a
  end.

(** [new Date(ms)] *)
Inductive Date : Type := new_Date (ms : float).

(** The argument of [listRUMEvents]; a field left out or [undefined] is
    [None]. *)
Record ListRUMEventsRequest : Type := {
  filterQuery : option string;
  filterFrom : option Date;
  filterTo : option Date;
  sort : string;
  pageLimit : float;
}.

(** The responses: [data] is [None] when [response.data == null]. *)
Record RUMEventsResponse : Type := { events_data : option (list RUMEvent) }.
Record RUMApplicationsResponse : Type := { applications_data : option (list value) }.

(** [v2.RUMApi], as far as the handlers use it. *)
Record RUMApi : Type := {
  getRUMApplications : RUMApplicationsResponse;
  listRUMEvents : ListRUMEventsRequest → RUMEventsResponse;
}.

(** ** Sets and loops *)

(** A [Set]: its elements in insertion order, none twice up to
    [SameValueZero]. *)
Definition Set_has (s : list value) (v : value) : bool :=
  existsb (λ x, SameValueZero x v) s.

Definition Set_add (s : list value) (v : value) : list value :=
  if Set_has s v then s else s ++ [v].

(** [for (const x of l) { s = step(s, x) }], left when a step throws. *)
Fixpoint for_of {S A : Type} (step : S → A → completion S) (s : S) (l : list A)
    : completion S :=
  match l with
  | [] => Normal s
  | x :: l' =>
      s' ← step s x;
      for_of step s' l'
  end.

(** ** Numbers of a series *)

(** [values.reduce((a, b) => a + b, 0)] *)
Definition sum (values : list float) : float :=
  fold_left PrimFloat.add values 0%float.

Definition is_neg_zero (x : float) : bool :=
  match classify x with
  | NZero => true
  | _ => false
  end.

Definition is_pos_zero (x : float) : bool :=
  match classify x with
  | PZero => true
  | _ => false
  end.

(** One turn of [Math.min]: [-0] is below [+0], and a smaller number takes
    the place of [lowest]. *)
Definition min_step (lowest x : float) : float :=
  if is_neg_zero x && is_pos_zero lowest then x
  else if (x <? lowest)%float then x else lowest.

(** One turn of [Math.max]: [+0] is above [-0], and a larger number takes
    the place of [highest]. *)
Definition max_step (highest x : float) : float :=
  if is_pos_zero x && is_neg_zero highest then x
  else if (highest <? x)%float then x else highest.

(** [Math.min(...values)]: [NaN] as soon as one argument is, else the fold
    of [min_step] from [+Infinity]. The spread passes every sample as an
    argument of its own; the number of arguments at which an engine gives up
    is not modelled. *)
Definition Math_min (values : list float) : float :=
  if existsb is_nan values then nan
  else fold_left min_step values infinity.

(** [Math.max(...values)]: [NaN] as soon as one argument is, else the fold
    of [max_step] from [-Infinity]. *)
Definition Math_max (values : list float) : float :=
  if existsb is_nan values then nan
  else fold_left max_step values neg_infinity.

(** [{ avg: number; min: number; max: number; count: number }]; [count] is
    always the length of an array. *)
Record MetricSummary : Type := {
  avg : float;
  min : float;
  max : float;
  count : nat;
}.

(** The body of the statistics reducer (tool.ts, lines 224-234). *)
Definition summarize (values : list float) : MetricSummary :=
  if bool_decide (0 < length values)%nat then
    {| avg := sum values / Number_of_nat (length values);
       min := Math_min values;
       max := Math_max values;
       count := length values |}
  else {| avg := 0; min := 0; max := 0; count := 0 |}.

(** The object [metrics], created by [{}] and only ever written through
    [metrics[name] = ...]: its own properties, and the array that an
    assignment to the key ["__proto__"] has installed as its prototype (such
    an assignment runs the setter of [Object.prototype] and creates no own
    property). *)
Record MetricsObject : Type := {
  own : gmap string (list float);
  proto : option (list float);
}.

(** [{}] *)
Definition empty_object : MetricsObject := {| own := ∅; proto := None |}.

(** [metrics[name] = values] *)
Definition metrics_set (metrics : MetricsObject) (name : string) (values : list float)
    : MetricsObject :=
  if bool_decide (name = "__proto__")
  then {| own := own metrics; proto := Some values |}
  else {| own := <[name := values]> (own metrics); proto := proto metrics |}.

(** [metrics[name]], for a name that was assigned before; [None] stands for
    what is not an array of samples (a [push] on it would throw). *)
Definition metrics_get (metrics : MetricsObject) (name : string) : option (list float) :=
  if bool_decide (name = "__proto__") then proto metrics else own metrics !! name.

(** ** Handlers *)

(** What is serialised into the text of a result. *)
Inductive payload : Type :=
| Applications (data : list value)
| Events (data : list RUMEvent)
| SessionCounts (sessionCounts : gmap string nat)
| PerformanceMetrics (results : gmap string MetricSummary).

(** [{ content: [{ type: 'text', text: `${label}${JSON.stringify(json)}` }] }] *)
Record ToolResult : Type := { label : string; json : payload }.

(** A handler awaits one call of the API and then computes its result from
    the response, or throws. *)
Inductive handler : Type :=
| AwaitGetRUMApplications (k : RUMApplicationsResponse → completion ToolResult)
| AwaitListRUMEvents (request : ListRUMEventsRequest)
    (k : RUMEventsResponse → completion ToolResult).

(** The request a handler sends to [listRUMEvents], if it sends one. *)
Definition sent (h : handler) : option ListRUMEventsRequest :=
  match h with
  | AwaitGetRUMApplications _ => None
  | AwaitListRUMEvents request _ => Some request
  end.

(** A handler run against an API instance. *)
Definition run (apiInstance : RUMApi) (h : handler) : completion ToolResult :=
  match h with
  | AwaitGetRUMApplications k => k (getRUMApplications apiInstance)
  | AwaitListRUMEvents request k => k (listRUMEvents apiInstance request)
  end.

(** The arguments of each handler, as its schema has parsed them. *)
Module GetRumEvents.
Record params : Type := { query : string; from : float; to : float; limit : float }.
End GetRumEvents.

Module GetRumGroupedEventCount.
Record params : Type := { query : string; from : float; to : float; groupBy : string }.
End GetRumGroupedEventCount.

Module GetRumPagePerformance.
Record params : Type :=
  { query : string; from : float; to : float; metricNames : list string }.
End GetRumPagePerformance.

Module GetRumPageWaterfall.
Record params : Type := { applicationName : string; sessionId : string }.
End GetRumPageWaterfall.

Definition no_events_data : exn := Error "No RUM events data returned".
Definition no_applications_data : exn := Error "No RUM applications data returned".

Section Handlers.
Context `{RT : Runtime}.

(** *** get_rum_grouped_event_count (lines 99-160) *)

(** [result.found ? String(result.value) : 'unknown'], for the path
    [groupBy.split('.')] (its segments are strings already, so mapping
    [String] over them changes nothing). *)
Definition groupValue_of (attrs : value) (groupBy : string) : completion string :=
  result ← getValueByPath attrs (split "." groupBy) 0;
  if found result then js_String (value_of result) else Normal "unknown".

(** [event.attributes.attributes.session?.id] *)
Definition session_id (attrs : value) : completion value :=
  session ← Get attrs "session";
  if is_nullish session then Normal VUndefined else Get session "id".

(** One turn of the loop over [response.data] (lines 120-145). *)
Definition count_event (groupBy : string) (sessions : gmap string (list value))
    (event : RUMEvent) : completion (gmap string (list value)) :=
  let attrs := optional_attributes event in
  if negb (ToBoolean attrs) then Normal sessions
  else
    groupValue ← groupValue_of attrs groupBy;
    let sessions :=
      if bool_decide (is_Some (sessions !! groupValue)) then sessions
      else <[groupValue := []]> sessions in
    id ← session_id attrs;
    if ToBoolean id
    then Normal (alter (λ set, Set_add set id) groupValue sessions)
    else Normal sessions.

(** The map [sessions] after the loop. *)
Definition session_sets (data : list RUMEvent) (groupBy : string)
    : completion (gmap string (list value)) :=
  for_of (count_event groupBy) ∅ data.

(** [Object.fromEntries(... [key, set.size])] *)
Definition grouped_event_count (data : list RUMEvent) (groupBy : string)
    : completion (gmap string nat) :=
  sessions ← session_sets data groupBy;
  Normal (length <$> (sessions : gmap string (list value))).

Definition get_rum_grouped_event_count (p : GetRumGroupedEventCount.params) : handler :=
  let query := GetRumGroupedEventCount.query p in
  AwaitListRUMEvents
    {| filterQuery := if bool_decide (query ≠ "*") then Some query else None;
       filterFrom := Some (new_Date (GetRumGroupedEventCount.from p * 1000));
       filterTo := Some (new_Date (GetRumGroupedEventCount.to p * 1000));
       sort := "timestamp";
       pageLimit := 2000 |}
    (λ response,
      match events_data response with
      | None => Throw no_events_data
      | Some data =>
          sessionCounts ← grouped_event_count data (GetRumGroupedEventCount.groupBy p);
          Normal {| label := "Session counts (grouped by "
                             +:+ GetRumGroupedEventCount.groupBy p +:+ "): ";
                    json := SessionCounts sessionCounts |}
      end).

(** *** get_rum_page_performance (lines 162-251) *)

(** [metricNames.reduce((acc, name) => { acc[name] = []; return acc }, {})] *)
Definition initial_metrics (metricNames : list string) : MetricsObject :=
  fold_left (λ acc name, metrics_set acc name []) metricNames empty_object.

(** One turn of the inner loop (lines 196-215), for the attribute map
    [attrs] of the event; [typeof value === 'number'] is the case [VNumber]. *)
Definition collect_metric (attrs : value) (metrics : MetricsObject) (metricName : string)
    : completion MetricsObject :=
  if is_nullish attrs then Normal metrics
  else
    v ← reduce_path attrs (split "." metricName);
    match v with
    | VNumber n =>
        match metrics_get metrics metricName with
        | Some series => Normal (metrics_set metrics metricName (series ++ [n]))
        | None => Throw TypeError
        end
    | _ => Normal metrics
    end.

(** One turn of the loop over [response.data] (lines 190-216). *)
Definition collect_event (metricNames : list string) (metrics : MetricsObject)
    (event : RUMEvent) : completion MetricsObject :=
  let attrs := optional_attributes event in
  if negb (ToBoolean attrs) then Normal metrics
  else for_of (collect_metric attrs) metrics metricNames.

(** The object [metrics] after the loop. *)
Definition collected_metrics (data : list RUMEvent) (metricNames : list string)
    : completion MetricsObject :=
  for_of (collect_event metricNames) (initial_metrics metricNames) data.

(** [Object.entries(metrics).reduce(...)]: one summary per own property. *)
Definition page_performance (data : list RUMEvent) (metricNames : list string)
    : completion (gmap string MetricSummary) :=
  metrics ← collected_metrics data metricNames;
  Normal (summarize <$> own metrics).

Definition get_rum_page_performance (p : GetRumPagePerformance.params) : handler :=
  let query := GetRumPagePerformance.query p in
  let viewQuery := if bool_decide (query ≠ "*") then "@type:view " +:+ query else "@type:view" in
  AwaitListRUMEvents
    {| filterQuery := Some viewQuery;
       filterFrom := Some (new_Date (GetRumPagePerformance.from p * 1000));
       filterTo := Some (new_Date (GetRumPagePerformance.to p * 1000));
       sort := "timestamp";
       pageLimit := 2000 |}
    (λ response,
      match events_data response with
      | None => Throw no_events_data
      | Some data =>
          results ← page_performance data (GetRumPagePerformance.metricNames p);
          Normal {| label := "Page performance metrics: ";
                    json := PerformanceMetrics results |}
      end).

End Handlers.

(** *** get_rum_applications, get_rum_events, get_rum_page_waterfall *)

Definition get_rum_applications : handler :=
  AwaitGetRUMApplications (λ response,
    match applications_data response with
    | None => Throw no_applications_data
    | Some data => Normal {| label := "RUM applications: "; json := Applications data |}
    end).

Definition get_rum_events (p : GetRumEvents.params) : handler :=
  AwaitListRUMEvents
    {| filterQuery := Some (GetRumEvents.query p);
       filterFrom := Some (new_Date (GetRumEvents.from p * 1000));
       filterTo := Some (new_Date (GetRumEvents.to p * 1000));
       sort := "timestamp";
       pageLimit := GetRumEvents.limit p |}
    (λ response,
      match events_data response with
      | None => Throw no_events_data
      | Some data => Normal {| label := "RUM events data: "; json := Events data |}
      end).

Definition get_rum_page_waterfall (p : GetRumPageWaterfall.params) : handler :=
  AwaitListRUMEvents
    {| filterQuery := Some ("@application.name:" +:+ GetRumPageWaterfall.applicationName p
                            +:+ " @session.id:" +:+ GetRumPageWaterfall.sessionId p);
       filterFrom := None;
       filterTo := None;
       sort := "timestamp";
       pageLimit := 2000 |}
    (λ response,
      match events_data response with
      | None => Throw no_events_data
      | Some data => Normal {| label := "Waterfall data: "; json := Events data |}
      end).

(** * Vocabulary of the properties *)

(** No two entries of the list are the same value: an entry differs from
    every later one. *)
Definition distinct (ids : list value) : Prop :=
  ∀ (i j : nat) (x y : value),
    (i < j)%nat → ids !! i = Some x → ids !! j = Some y → SameValueZero x y = false.

Section Vocabulary.
Context `{RT : Runtime}.

(** The values that a walk along [path] reads a property of: [obj], and the
    value that each segment but the last leads to, as far as the reads go. *)
Fixpoint indexed (obj : value) (path : list string) : list value :=
  match path with
  | [] => []
  | key :: rest =>
      obj :: match Get obj key with
             | Normal x => indexed x rest
             | Throw _ => []
             end
  end.

(** An event with a usable attributes payload: one the loops do not skip. *)
Definition usable (event : RUMEvent) : Prop :=
  ToBoolean (optional_attributes event) = true.

(** The event is one of the group [key]. *)
Definition in_group (groupBy key : string) (event : RUMEvent) : Prop :=
  usable event ∧ groupValue_of (optional_attributes event) groupBy = Normal key.

(** The event carries the session identifier [id]. *)
Definition carries (id : value) (event : RUMEvent) : Prop :=
  session_id (optional_attributes event) = Normal id ∧ ToBoolean id = true.

(** [ids] lists the session identifiers of the group [key], each once: no
    two of its entries are the same value, every entry is carried by an
    event of the group, and it holds the session identifier of every event
    of the group. *)
Definition lists_sessions (data : list RUMEvent) (groupBy key : string)
    (ids : list value) : Prop :=
  distinct ids ∧
  (∀ x, x ∈ ids → ∃ e, e ∈ data ∧ in_group groupBy key e ∧ carries x e) ∧
  (∀ e id, e ∈ data → in_group groupBy key e → carries id e →
           ∃ x, x ∈ ids ∧ SameValueZero x id = true).

(** The same three notions as the specification words them, without the
    expressions [groupValue_of] and [session_id] of the handler. *)

(** The group of an event with a usable attributes payload is the string of
    what [getValueByPath] finds at the [groupBy] path, and ["unknown"] when
    it finds nothing there. *)
Definition group_key_is (groupBy key : string) (event : RUMEvent) : Prop :=
  usable event ∧
  ∃ result,
    getValueByPath (optional_attributes event) (split "." groupBy) 0 = Normal result ∧
    if found result then js_String (value_of result) = Normal key else key = "unknown".

(** The session identifier of an event is what stands at the fixed path
    [session.id] of its attribute map: the property [id] of the property
    [session]. An event has one when both properties can be read and the
    identifier is not empty (not falsy, see C10). *)
Definition session_id_is (id : value) (event : RUMEvent) : Prop :=
  ∃ session,
    Get (optional_attributes event) "session" = Normal session ∧
    Get session "id" = Normal id ∧
    ToBoolean id = true.

(** [ids] holds each session identifier among the events of the group [key]
    once: its length is the number of distinct session identifiers of the
    group. *)
Definition distinct_sessions_of_group (data : list RUMEvent) (groupBy key : string)
    (ids : list value) : Prop :=
  distinct ids ∧
  (∀ x, x ∈ ids → ∃ e, e ∈ data ∧ group_key_is groupBy key e ∧ session_id_is x e) ∧
  (∀ e id, e ∈ data → group_key_is groupBy key e → session_id_is id e →
           ∃ x, x ∈ ids ∧ SameValueZero x id = true).

(** What a turn of the loop does to [sessions] for an event of the group
    [key] whose [session?.id] is [id]. *)
Definition file_under (key : string) (id : value) (sessions : gmap string (list value))
    : gmap string (list value) :=
  let sessions :=
    if bool_decide (is_Some (sessions !! key)) then sessions
    else <[key := []]> sessions in
  if ToBoolean id then alter (λ set, Set_add set id) key sessions else sessions.

(** What holds of [sessions] after the loop has run over [data]. *)
Record sessions_inv (groupBy : string) (data : list RUMEvent)
    (sessions : gmap string (list value)) : Prop := {
  inv_keys : ∀ k, is_Some (sessions !! k) ↔ ∃ e, e ∈ data ∧ in_group groupBy k e;
  inv_distinct : ∀ k set, sessions !! k = Some set → distinct set;
  inv_sound : ∀ k set x, sessions !! k = Some set → x ∈ set →
    ∃ e, e ∈ data ∧ in_group groupBy k e ∧ carries x e;
  inv_complete : ∀ k set e id, sessions !! k = Some set →
    e ∈ data → in_group groupBy k e → carries id e →
    ∃ x, x ∈ set ∧ SameValueZero x id = true;
  inv_resolved : ∀ e, e ∈ data → usable e → ∃ k, in_group groupBy k e;
}.

(** The sample an attribute map has for a metric name: the value the reducer
    yields when it is a number, nothing otherwise. *)
Definition sample_of (attrs : value) (name : string) : list float :=
  match reduce_path attrs (split "." name) with
  | Normal (VNumber n) => [n]
  | _ => []
  end.

(** The samples one event adds to the series of [name]: one for every time
    the name is requested, if the event is usable. *)
Definition samples_of (metricNames : list string) (name : string) (event : RUMEvent)
    : list float :=
  if ToBoolean (optional_attributes event)
  then flat_map (λ metricName,
         if bool_decide (metricName = name)
         then sample_of (optional_attributes event) name else []) metricNames
  else [].

(** The series of [name] over all events, in their order. *)
Definition series (data : list RUMEvent) (metricNames : list string) (name : string)
    : list float :=
  flat_map (samples_of metricNames name) data.

End Vocabulary.

(** Two maps of session sets with the same set under every key, a missing
    key counting as the empty set. *)
Definition same_sets (m m' : gmap string (list value)) : Prop :=
  ∀ k, default [] (m !! k) = default [] (m' !! k).

(** Whatever the evaluation throws is the [TypeError] of a read or of a
    conversion, not an [Error] of the source. *)
Definition only_TypeError {A : Type} (c : completion A) : Prop :=
  ∀ e, c = Throw e → e = TypeError.

(** The response that a handler awaits has no data ([data == null]), or has
    an empty array of data. *)
Definition no_data (apiInstance : RUMApi) (h : handler) : Prop :=
  match h with
  | AwaitGetRUMApplications _ => applications_data (getRUMApplications apiInstance) = None
  | AwaitListRUMEvents request _ =>
      events_data (listRUMEvents apiInstance request) = None
  end.

Definition empty_data (apiInstance : RUMApi) (h : handler) : Prop :=
  match h with
  | AwaitGetRUMApplications _ => applications_data (getRUMApplications apiInstance) = Some []
  | AwaitListRUMEvents request _ =>
      events_data (listRUMEvents apiInstance request) = Some []
  end.

(** ** The order of the numbers *)

(** A number that is not [NaN] has a place in the order of the triples of
    integers compared from the left: the infinities at the ends, the two
    zeros together in the middle, a finite number by sign, exponent and
    mantissa. *)
Definition rank (x : spec_float) : Z * Z * Z :=
  match x with
  | S754_nan => (0, 0, 0)
  | S754_zero _ => (0, 0, 0)
  | S754_infinity true => (-2, 0, 0)
  | S754_infinity false => (2, 0, 0)
  | S754_finite true m e => (-1, - e, - Z.pos m)
  | S754_finite false m e => (1, e, Z.pos m)
  end%Z.

(** The order of the triples. *)
Definition lex_lt (a b : Z * Z * Z) : Prop :=
  (a.1.1 < b.1.1 ∨ (a.1.1 = b.1.1 ∧ (a.1.2 < b.1.2 ∨ (a.1.2 = b.1.2 ∧ a.2 < b.2))))%Z.

(** [x] is less than [y], for two numbers that are not [NaN]. *)
Definition below (x y : float) : Prop := lex_lt (rank (Prim2SF x)) (rank (Prim2SF y)).

(** ** An engine to run the examples in *)

(** [Number::toString] on the integers below 10^21, which print as their
    decimal digits, and on the zeros, infinities and [NaN]; the examples
    print no other number. *)
Definition example_Number_toString (n : float) : string :=
  match Prim2SF n with
  | S754_zero _ => "0"
  | S754_infinity false => "Infinity"
  | S754_infinity true => "-Infinity"
  | S754_nan => "NaN"
  | S754_finite s m e =>
      (if s then "-" else "") +:+
      pretty (if bool_decide (0 ≤ e)%Z then Z.pos m * 2 ^ e else Z.pos m / 2 ^ (- e))%Z
  end.

(** The examples read no key that a prototype of the language defines, so
    every inherited read is [undefined]; they convert to a string only
    primitives and objects without a [toString] or [valueOf] of their own. *)
Definition example_runtime : Runtime :=
  {| inherited _ _ := Some VUndefined;
     Number_toString := example_Number_toString;
     Object_toString v :=
       match v with
       | VObject _ props =>
           match own_property "toString" props with
           | None => Some "[object Object]"
           | Some _ => None
           end
       | _ => None
       end |}.

(** An API instance that answers every call with an empty array. *)
Definition empty_api : RUMApi :=
  {| getRUMApplications := {| applications_data := Some [] |};
     listRUMEvents _ := {| events_data := Some [] |} |}.

(** An API instance whose events are one event with the attribute map
    [{ a: null }]. *)
Definition null_attribute_api : RUMApi :=
  {| getRUMApplications := {| applications_data := Some [] |};
     listRUMEvents _ :=
       {| events_data := Some
            [{| event_attributes := Some {| attributes := VObject 1 [("a", VNull)] |} |}] |} |}.

(** An event as the client delivers it, with the attribute map
    [{ geo: { country }, session: { id } }]. *)
Definition view_event (ref : positive) (country : string) (id : value) : RUMEvent :=
  {| event_attributes := Some {| attributes :=
       VObject ref
         [("geo", VObject (ref + 1) [("country", VString country)]);
          ("session", VObject (ref + 2) [("id", id)])] |} |}.

(** An event with the attribute map [{ view: { load_time } }]. *)
Definition timed_event (ref : positive) (load_time : value) : RUMEvent :=
  {| event_attributes := Some {| attributes :=
       VObject ref [("view", VObject (ref + 1) [("load_time", load_time)])] |} |}.

(** Two events of session "s1" in "US" and one of session "s2" in "FR". *)
Definition three_events : list RUMEvent :=
  [view_event 10 "US" (VString "s1");
   view_event 20 "US" (VString "s1");
   view_event 30 "FR" (VString "s2")].

(** Four events in "US", of the sessions "s1", "s2", "s1" again and "s3",
    and between them one in "FR" of the session "s2". *)
Definition five_events : list RUMEvent :=
  [view_event 10 "US" (VString "s1");
   view_event 20 "US" (VString "s2");
   view_event 30 "US" (VString "s1");
   view_event 40 "FR" (VString "s2");
   view_event 50 "US" (VString "s3")].

(** An event of the group "US" that has no session. *)
Definition sessionless_event : RUMEvent :=
  {| event_attributes := Some {| attributes :=
       VObject 1 [("geo", VObject 2 [("country", VString "US")])] |} |}.

(** Load times 100 and 300, and between them an event whose load time is the
    string "42". *)
Definition timed_events : list RUMEvent :=
  [timed_event 10 (VNumber 100); timed_event 20 (VString "42"); timed_event 30 (VNumber 300)].

(** ** Vocabulary of the further properties *)

(** [pieces.join(sep)] *)
Fixpoint join (sep : string) (pieces : list string) : string :=
  match pieces with
  | [] => ""
  | [piece] => piece
  | piece :: rest => piece +:+ sep +:+ join sep rest
  end.

(** How often the character [c] occurs in [s]. *)
Fixpoint occurrences (c : ascii) (s : string) : nat :=
  match s with
  | EmptyString => 0
  | String c' rest => (if bool_decide (c' = c) then 1 else 0) + occurrences c rest
  end.

Section FurtherVocabulary.
Context `{RT : Runtime}.

(** The session identifier that the grouping loop reads from an event, when
    the read returns. *)
Definition session_id_of (event : RUMEvent) : option value :=
  match session_id (optional_attributes event) with
  | Normal id => Some id
  | Throw _ => None
  end.

(** The loop of [get_rum_grouped_event_count] can take its turn for the
    event: it skips it, or it can compute its group value and read its
    session identifier. *)
Definition countable (groupBy : string) (event : RUMEvent) : Prop :=
  usable event →
  (∃ key, groupValue_of (optional_attributes event) groupBy = Normal key) ∧
  (∃ id, session_id (optional_attributes event) = Normal id).

(** The event is usable and the reducer yields a value of type number for
    the metric [name]. *)
Definition yields_number (name : string) (event : RUMEvent) : bool :=
  ToBoolean (optional_attributes event) &&
  match reduce_path (optional_attributes event) (split "." name) with
  | Normal (VNumber _) => true
  | _ => false
  end.

End FurtherVocabulary.

(** * Properties *)

(** ** The order of the numbers, [Math.min] and [Math.max] *)

Lemma SFltb_rank (x y : spec_float) :
  x ≠ S754_nan → y ≠ S754_nan → SFltb x y = true ↔ lex_lt (rank x) (rank y).
Proof.
  intros Hx Hy. unfold SFltb, lex_lt.
  destruct x as [sx|sx| |sx mx ex], y as [sy|sy| |sy my ey]; try done;
    repeat match goal with s : bool |- _ => destruct s end; simpl;
    try (split; [intros; lia|intros; first [done|lia]]);
    try (split; [done|intros; lia]).
  - destruct (Z.compare_spec ex ey); simpl; [|split; [done|lia]|split; [lia|done]].
    unfold Pos.compare_cont; fold (Pos.compare_cont Eq mx my).
    change (Pos.compare_cont Eq mx my) with (Pos.compare mx my).
    destruct (Pos.compare_spec mx my); simpl; split; intros; first [done|lia].
  - destruct (Z.compare_spec ex ey); simpl; [|split; [lia|done]|split; [done|lia]].
    change (Pos.compare_cont Eq mx my) with (Pos.compare mx my).
    destruct (Pos.compare_spec mx my); simpl; split; intros; first [done|lia].
Qed.

Lemma is_nan_Prim2SF (x : float) : is_nan x = false → Prim2SF x ≠ S754_nan.
Proof.
  unfold is_nan. rewrite FloatAxioms.eqb_spec. intros Hx Hnan. by rewrite Hnan in Hx.
Qed.

Lemma ltb_below (x y : float) :
  is_nan x = false → is_nan y = false → (x <? y)%float = true ↔ below x y.
Proof.
  intros Hx Hy. rewrite FloatAxioms.ltb_spec. by apply SFltb_rank; apply is_nan_Prim2SF.
Qed.

Lemma ltb_false_below (x y : float) :
  is_nan x = false → is_nan y = false → (x <? y)%float = false ↔ ¬ below x y.
Proof.
  intros Hx Hy. rewrite <- (ltb_below x y Hx Hy). by destruct (x <? y)%float.
Qed.

Lemma is_neg_zero_rank (x : float) :
  is_neg_zero x = true → rank (Prim2SF x) = (0, 0, 0)%Z.
Proof.
  unfold is_neg_zero. rewrite FloatAxioms.classify_spec. unfold SF64classify, SFclassify.
  destruct (Prim2SF x) as [[]|[]| |[] m e]; try done;
    by destruct (Z.pos (digits2_pos m) =? prec)%Z.
Qed.

Lemma is_pos_zero_rank (x : float) :
  is_pos_zero x = true → rank (Prim2SF x) = (0, 0, 0)%Z.
Proof.
  unfold is_pos_zero. rewrite FloatAxioms.classify_spec. unfold SF64classify, SFclassify.
  destruct (Prim2SF x) as [[]|[]| |[] m e]; try done;
    by destruct (Z.pos (digits2_pos m) =? prec)%Z.
Qed.

(** Only [+Infinity] is not below [+Infinity], only [-Infinity] not above
    [-Infinity]. *)
Lemma not_below_infinity (x : float) :
  is_nan x = false → ¬ below x infinity → x = infinity.
Proof.
  intros Hx Hbelow. apply is_nan_Prim2SF in Hx.
  rewrite <- (SF2Prim_Prim2SF x). unfold below, lex_lt in Hbelow.
  change (Prim2SF infinity) with (S754_infinity false) in Hbelow.
  destruct (Prim2SF x) as [[]|[]| |[] m e]; try done; simpl in Hbelow; lia.
Qed.

Lemma not_above_neg_infinity (x : float) :
  is_nan x = false → ¬ below neg_infinity x → x = neg_infinity.
Proof.
  intros Hx Hbelow. apply is_nan_Prim2SF in Hx.
  rewrite <- (SF2Prim_Prim2SF x). unfold below, lex_lt in Hbelow.
  change (Prim2SF neg_infinity) with (S754_infinity true) in Hbelow.
  destruct (Prim2SF x) as [[]|[]| |[] m e]; try done; simpl in Hbelow; lia.
Qed.

Lemma SFeqb_rank (x y : spec_float) :
  x ≠ S754_nan → y ≠ S754_nan → SFeqb x y = true ↔ rank x = rank y.
Proof.
  intros Hx Hy. unfold SFeqb.
  destruct x as [sx|sx| |sx mx ex], y as [sy|sy| |sy my ey]; try done;
    repeat match goal with s : bool |- _ => destruct s end; simpl;
    try (split; [done|intros [=]; lia]); try (split; done).
  - destruct (Z.compare_spec ex ey); simpl; [|split; [done|intros [=]; lia]..].
    change (Pos.compare_cont Eq mx my) with (Pos.compare mx my).
    destruct (Pos.compare_spec mx my); simpl;
      [by subst|split; [done|intros [=]; lia]..].
  - destruct (Z.compare_spec ex ey); simpl; [|split; [done|intros [=]; lia]..].
    change (Pos.compare_cont Eq mx my) with (Pos.compare mx my).
    destruct (Pos.compare_spec mx my); simpl;
      [by subst|split; [done|intros [=]; lia]..].
Qed.

Lemma Prim2SF_is_nan (x : float) : is_nan x = true → Prim2SF x = S754_nan.
Proof.
  unfold is_nan. rewrite FloatAxioms.eqb_spec. intros Hx.
  destruct (Prim2SF x) as [s|s| |s m e] eqn:Hsf; [..|done|];
    assert (SFeqb (Prim2SF x) (Prim2SF x) = true) as Heq
      by (apply SFeqb_rank; congruence);
    rewrite Hsf in Heq; by rewrite Heq in Hx.
Qed.

(** Two numbers are equal for [===] when neither is [NaN] and they have the
    same place in the order. *)
Lemma eqb_rank (x y : float) :
  (x =? y)%float = true ↔
  is_nan x = false ∧ is_nan y = false ∧ rank (Prim2SF x) = rank (Prim2SF y).
Proof.
  rewrite FloatAxioms.eqb_spec. split.
  - intros Heq.
    assert (is_nan x = false) as Hx.
    { destruct (is_nan x) eqn:Hx; [|done]. apply Prim2SF_is_nan in Hx.
      rewrite Hx in Heq. done. }
    assert (is_nan y = false) as Hy.
    { destruct (is_nan y) eqn:Hy; [|done]. apply Prim2SF_is_nan in Hy.
      rewrite Hy in Heq. by destruct (Prim2SF x). }
    split_and!; [done..|]. by apply SFeqb_rank; [apply is_nan_Prim2SF..|].
  - intros (Hx & Hy & Hrank). by apply SFeqb_rank; [apply is_nan_Prim2SF..|].
Qed.

Lemma min_step_spec (lowest x : float) :
  is_nan lowest = false → is_nan x = false →
  (min_step lowest x = x ∨ min_step lowest x = lowest) ∧
  ¬ below x (min_step lowest x) ∧
  (∀ y, ¬ below y lowest → ¬ below y (min_step lowest x)).
Proof.
  intros Hlowest Hx. unfold min_step.
  destruct (is_neg_zero x && is_pos_zero lowest) eqn:Hzeros.
  - apply andb_true_iff in Hzeros as [Hneg Hpos].
    apply is_neg_zero_rank in Hneg. apply is_pos_zero_rank in Hpos.
    unfold below, lex_lt. rewrite ?Hneg, ?Hpos. simpl.
    split_and!; [by left|lia|done].
  - destruct (x <? lowest)%float eqn:Hlt.
    + apply ltb_below in Hlt; [|done..]. unfold below, lex_lt in *.
      split_and!; [by left|lia|intros y; lia].
    + apply ltb_false_below in Hlt; [|done..]. split_and!; [by right|done..].
Qed.

Lemma max_step_spec (highest x : float) :
  is_nan highest = false → is_nan x = false →
  (max_step highest x = x ∨ max_step highest x = highest) ∧
  ¬ below (max_step highest x) x ∧
  (∀ y, ¬ below highest y → ¬ below (max_step highest x) y).
Proof.
  intros Hhighest Hx. unfold max_step.
  destruct (is_pos_zero x && is_neg_zero highest) eqn:Hzeros.
  - apply andb_true_iff in Hzeros as [Hpos Hneg].
    apply is_neg_zero_rank in Hneg. apply is_pos_zero_rank in Hpos.
    unfold below, lex_lt. rewrite ?Hneg, ?Hpos. simpl.
    split_and!; [by left|lia|done].
  - destruct (highest <? x)%float eqn:Hlt.
    + apply ltb_below in Hlt; [|done..]. unfold below, lex_lt in *.
      split_and!; [by left|lia|intros y; lia].
    + apply ltb_false_below in Hlt; [|done..]. split_and!; [by right|done..].
Qed.

(** The state of a fold of [step] from [start] over the entries seen so far:
    it is [start] or an entry, it is no [NaN], and it satisfies [bound]
    against every entry. *)
Lemma fold_extremum (step : float → float → float) (bound : float → float → Prop)
    (start : float) (values : list float) :
  (∀ acc x, is_nan acc = false → is_nan x = false →
     (step acc x = x ∨ step acc x = acc) ∧ bound (step acc x) x ∧
     (∀ y, bound acc y → bound (step acc x) y)) →
  is_nan start = false →
  existsb is_nan values = false →
  let result := fold_left step values start in
  (result = start ∨ result ∈ values) ∧ is_nan result = false ∧
  (∀ y, y ∈ values → bound result y).
Proof.
  intros Hstep Hstart Hnan. simpl.
  induction values as [|x values IH] using rev_ind; simpl.
  - split_and!; [by left|done|]. intros y Hy. by apply elem_of_nil in Hy.
  - rewrite existsb_app in Hnan. apply orb_false_iff in Hnan as [Hnan Hx].
    simpl in Hx. rewrite orb_false_r in Hx.
    destruct (IH Hnan) as (Hmem & Hacc & Hbound).
    rewrite fold_left_app. simpl.
    destruct (Hstep (fold_left step values start) x Hacc Hx) as (Hcase & Hnew & Hold).
    split_and!.
    + destruct Hcase as [->| ->].
      * right. apply elem_of_app. right. by apply list_elem_of_singleton.
      * destruct Hmem as [?|?]; [by left|right]. apply elem_of_app. by left.
    + by destruct Hcase as [->| ->].
    + intros y Hy. apply elem_of_app in Hy as [Hy|Hy]; [by apply Hold, Hbound|].
      by apply list_elem_of_singleton in Hy as ->.
Qed.

(** For a series that is not empty and holds no [NaN], [Math.min] is an
    entry of the series that no entry is less than, and [Math.max] an entry
    that is less than no entry. *)
Theorem Math_min_max_extrema (values : list float) :
  values ≠ [] →
  existsb is_nan values = false →
  Math_min values ∈ values ∧
  (∀ y, y ∈ values → (y <? Math_min values)%float = false) ∧
  Math_max values ∈ values ∧
  (∀ y, y ∈ values → (Math_max values <? y)%float = false).
Proof.
  intros Hne Hnan.
  assert (Hvalues : ∀ y, y ∈ values → is_nan y = false).
  { intros y Hy. destruct (is_nan y) eqn:Hy'; [|done].
    assert (existsb is_nan values = true); [|congruence].
    apply existsb_exists. exists y. by rewrite <- list_elem_of_In. }
  unfold Math_min, Math_max. rewrite Hnan.
  destruct (fold_extremum min_step (λ acc y, ¬ below y acc) infinity values)
    as (Hmin & Hmin_nan & Hmin_bound); [apply min_step_spec|done..|].
  destruct (fold_extremum max_step (λ acc y, ¬ below acc y) neg_infinity values)
    as (Hmax & Hmax_nan & Hmax_bound); [apply max_step_spec|done..|].
  destruct values as [|first values]; [done|].
  split_and!.
  - destruct Hmin as [Hmin|Hmin]; [|done]. rewrite Hmin in *.
    rewrite <- (not_below_infinity first); [by left|apply Hvalues; by left|].
    apply Hmin_bound. by left.
  - intros y Hy. apply ltb_false_below; [by apply Hvalues|done|by apply Hmin_bound].
  - destruct Hmax as [Hmax|Hmax]; [|done]. rewrite Hmax in *.
    rewrite <- (not_above_neg_infinity first); [by left|apply Hvalues; by left|].
    apply Hmax_bound. by left.
  - intros y Hy. apply ltb_false_below; [done|by apply Hvalues|by apply Hmax_bound].
Qed.

Lemma Math_min_max_extrema_witness :
  Math_min [200; 100; 300]%float ∈ [200; 100; 300]%float ∧
  (∀ y, y ∈ [200; 100; 300]%float → (y <? Math_min [200; 100; 300])%float = false) ∧
  Math_max [200; 100; 300]%float ∈ [200; 100; 300]%float ∧
  (∀ y, y ∈ [200; 100; 300]%float → (Math_max [200; 100; 300] <? y)%float = false).
Proof.
  apply (Math_min_max_extrema [200; 100; 300]%float); [discriminate|reflexivity].
Defined.

(** ** The two resolvers *)

Section Resolvers.
Context `{RT : Runtime}.

(** The recursion on the remaining segments is the recursion of the source on
    [index]: it stops when [index >= path.length] ... *)
Lemma getValueByPath_end (obj : value) (path : list string) (index : nat) :
  (length path ≤ index)%nat →
  getValueByPath obj path index = Normal {| value_of := obj; found := true |}.
Proof.
  intros Hlen. unfold getValueByPath. by rewrite drop_ge.
Qed.

(** ... and otherwise reads [path[index]] and goes on at [index + 1]. *)
Lemma getValueByPath_step (obj : value) (path : list string) (index : nat) (key : string) :
  path !! index = Some key →
  getValueByPath obj path index =
    x ← Get obj key;
    if is_undefined x then Normal {| value_of := VNull; found := false |}
    else getValueByPath x path (S index).
Proof.
  intros Hkey. unfold getValueByPath.
  by rewrite (drop_S _ _ _ Hkey).
Qed.

(** Once the accumulator is [undefined] the reducer keeps it. *)
Lemma reduce_path_undefined (parts : list string) :
  reduce_path VUndefined parts = Normal VUndefined.
Proof.
  induction parts as [|part parts IH]; [done|]. simpl. exact IH.
Qed.

(** A falsy accumulator is dropped for [undefined] at the next part. *)
Lemma reduce_path_falsy (acc : value) (part : string) (parts : list string) :
  ToBoolean acc = false →
  reduce_path acc (part :: parts) = Normal VUndefined.
Proof.
  intros Hacc. simpl. unfold reduce_step. rewrite Hacc. simpl.
  apply reduce_path_undefined.
Qed.

Lemma reduce_path_truthy (acc : value) (part : string) (parts : list string) :
  ToBoolean acc = true →
  reduce_path acc (part :: parts) = x ← Get acc part; reduce_path x parts.
Proof.
  intros Hacc. simpl. unfold reduce_step. by rewrite Hacc.
Qed.

Lemma reduce_number_getValueByPath_from (acc : value) (parts : list string) (n : float) :
  reduce_path acc parts = Normal (VNumber n) →
  getValueByPath_from acc parts = Normal {| value_of := VNumber n; found := true |}.
Proof.
  revert acc. induction parts as [|part parts IH]; intros acc Hred.
  - simpl in *. by inversion Hred.
  - destruct (ToBoolean acc) eqn:Hacc.
    + rewrite reduce_path_truthy in Hred by done. simpl.
      destruct (Get acc part) as [x|e]; simpl in *; [|done].
      destruct x; simpl; try (by apply IH).
      by rewrite reduce_path_undefined in Hred.
    + by rewrite reduce_path_falsy in Hred.
Qed.

Lemma getValueByPath_from_number_reduce (acc : value) (parts : list string) (n : float) :
  Forall (λ v, ToBoolean v = true) (indexed acc parts) →
  getValueByPath_from acc parts = Normal {| value_of := VNumber n; found := true |} →
  reduce_path acc parts = Normal (VNumber n).
Proof.
  revert acc. induction parts as [|part parts IH]; intros acc Hidx Hget.
  - simpl in *. by inversion Hget.
  - simpl in Hidx. apply Forall_cons in Hidx as [Hacc Hidx].
    rewrite reduce_path_truthy by done. simpl in Hget.
    destruct (Get acc part) as [x|e]; simpl in *; [|done].
    destruct (is_undefined x); [done|]. by apply IH.
Qed.

End Resolvers.

(** C1. [getValueByPath] is not total: when a segment resolves to [null] and
    another segment follows, the read of a property of [null] throws a
    [TypeError] (in every engine) instead of answering [found = false]. Here
    for the attribute map [{ a: null }] and the path [a.b]. *)
Theorem getValueByPath_null_intermediate_throws (RT : Runtime) :
  getValueByPath (VObject 1 [("a", VNull)]) ["a"; "b"] 0 = Throw TypeError.
Proof. reflexivity. Qed.

(** The same for every map, key and following segment. *)
Lemma getValueByPath_throws_below_null `{RT : Runtime}
    (obj : value) (key next : string) (rest : list string) :
  Get obj key = Normal VNull →
  getValueByPath obj (key :: next :: rest) 0 = Throw TypeError.
Proof.
  intros Hnull. unfold getValueByPath. simpl. by rewrite Hnull.
Qed.

(** An empty path is found, with the root as its value. *)
Lemma getValueByPath_empty_path `{RT : Runtime} (obj : value) :
  getValueByPath obj [] 0 = Normal {| value_of := obj; found := true |}.
Proof. reflexivity. Qed.

(** A missing key is not found. *)
Lemma getValueByPath_missing_key `{RT : Runtime}
    (obj : value) (key : string) (rest : list string) :
  Get obj key = Normal VUndefined →
  getValueByPath obj (key :: rest) 0 = Normal {| value_of := VNull; found := false |}.
Proof.
  intros Hmissing. unfold getValueByPath. simpl. by rewrite Hmissing.
Qed.

(** For the attribute map [{ a: "" }] and the path [a.length],
    [getValueByPath] finds the number 0 (the length of the empty string)
    while the reducer gives up at the falsy [""] and yields [undefined], in
    every engine. *)
Lemma empty_string_length `{RT : Runtime} :
  getValueByPath (VObject 1 [("a", VString "")]) ["a"; "length"] 0
    = Normal {| value_of := VNumber 0; found := true |} ∧
  reduce_path (VObject 1 [("a", VString "")]) ["a"; "length"] = Normal VUndefined.
Proof. split; reflexivity. Qed.

(** C2, as stated, fails for the attribute map [{ a: "" }] and the path
    [a.length]: the reducer yields a number if and only if [getValueByPath]
    finds it there in no engine, since [getValueByPath] finds 0 and the
    reducer yields [undefined]. *)
Lemma resolvers_differ_on_falsy_intermediate :
  ¬ ∃ RT : Runtime, ∀ n : float,
      reduce_path (VObject 1 [("a", VString "")]) ["a"; "length"] = Normal (VNumber n) ↔
      getValueByPath (VObject 1 [("a", VString "")]) ["a"; "length"] 0
        = Normal {| value_of := VNumber n; found := true |}.
Proof.
  intros [RT Hequiv]. destruct (Hequiv 0%float) as [_ Hback].
  specialize (Hback eq_refl). discriminate Hback.
Qed.

(** C2, amended. Every number the reducer of [get_rum_page_performance]
    yields is what [getValueByPath] finds at the same path; and a number that
    [getValueByPath] finds is what the reducer yields when the attribute map
    and every value that a segment before the last leads to are truthy. *)
Theorem reduce_path_getValueByPath `{RT : Runtime}
    (attrs : value) (path : list string) (n : float) :
  (reduce_path attrs path = Normal (VNumber n) →
   getValueByPath attrs path 0 = Normal {| value_of := VNumber n; found := true |}) ∧
  (Forall (λ v, ToBoolean v = true) (indexed attrs path) →
   getValueByPath attrs path 0 = Normal {| value_of := VNumber n; found := true |} →
   reduce_path attrs path = Normal (VNumber n)).
Proof.
  split.
  - apply reduce_number_getValueByPath_from.
  - apply getValueByPath_from_number_reduce.
Qed.

Lemma reduce_path_getValueByPath_witness :
  let attrs := VObject 1 [("view", VObject 2 [("load_time", VNumber 100)])] in
  let path := ["view"; "load_time"] in
  @getValueByPath example_runtime attrs path 0
    = Normal {| value_of := VNumber 100; found := true |} ∧
  @reduce_path example_runtime attrs path = Normal (VNumber 100).
Proof.
  intros attrs path. split.
  - apply (proj1 (@reduce_path_getValueByPath example_runtime attrs path 100%float)).
    reflexivity.
  - apply (proj2 (@reduce_path_getValueByPath example_runtime attrs path 100%float)).
    + repeat constructor.
    + reflexivity.
Defined.

(** ** Sets, loops and completions *)

Lemma bind_Normal {A B : Type} (c : completion A) (k : A → completion B) (b : B) :
  (x ← c; k x) = Normal b → ∃ a, c = Normal a ∧ k a = Normal b.
Proof.
  destruct c as [a|e]; simpl; [|done]. intros Hk. by exists a.
Qed.

Lemma for_of_app {S A : Type} (step : S → A → completion S) (s : S) (l1 l2 : list A) :
  for_of step s (l1 ++ l2) = s' ← for_of step s l1; for_of step s' l2.
Proof.
  revert s. induction l1 as [|x l1 IH]; intros s; simpl; [done|].
  destruct (step s x) as [s'|e]; simpl; [apply IH|done].
Qed.

Lemma for_of_snoc {S A : Type} (step : S → A → completion S) (s : S) (l : list A) (x : A) :
  for_of step s (l ++ [x]) = s' ← for_of step s l; step s' x.
Proof.
  rewrite for_of_app. destruct (for_of step s l) as [s'|e]; simpl; [|done].
  by destruct (step s' x).
Qed.

Lemma SameValueZero_refl (x : value) : SameValueZero x x = true.
Proof.
  destruct x; simpl; try done; try (by apply bool_decide_eq_true).
  unfold is_nan. by destruct (n =? n)%float.
Qed.

Lemma Set_has_true (s : list value) (v : value) :
  Set_has s v = true ↔ ∃ x, x ∈ s ∧ SameValueZero x v = true.
Proof.
  unfold Set_has. rewrite existsb_exists.
  split; intros (x & Hx & Hsame); exists x; by rewrite ?list_elem_of_In in *.
Qed.

Lemma Set_has_false (s : list value) (v x : value) :
  Set_has s v = false → x ∈ s → SameValueZero x v = false.
Proof.
  intros Hhas Hx. destruct (SameValueZero x v) eqn:Hsame; [|done].
  assert (Set_has s v = true) by (apply Set_has_true; eauto). congruence.
Qed.

Lemma distinct_nil : distinct [].
Proof. intros i j x y _ Hi. by rewrite lookup_nil in Hi. Qed.

Lemma Set_add_distinct (s : list value) (v : value) :
  distinct s → distinct (Set_add s v).
Proof.
  intros Hs. unfold Set_add. destruct (Set_has s v) eqn:Hhas; [done|].
  intros i j x y Hij Hi Hj.
  apply lookup_snoc_Some in Hj as [[Hlt Hj]|[Hlen ->]].
  - rewrite lookup_app_l in Hi by lia. exact (Hs i j x y Hij Hi Hj).
  - rewrite lookup_app_l in Hi by lia.
    eapply Set_has_false; [done|]. by eapply list_elem_of_lookup_2.
Qed.

Lemma Set_add_elem_of (s : list value) (v x : value) :
  x ∈ Set_add s v → x ∈ s ∨ x = v.
Proof.
  unfold Set_add. destruct (Set_has s v); [by left|].
  rewrite elem_of_app, list_elem_of_singleton. tauto.
Qed.

Lemma Set_add_mono (s : list value) (v x : value) :
  x ∈ s → x ∈ Set_add s v.
Proof.
  unfold Set_add. destruct (Set_has s v); [done|].
  rewrite elem_of_app. by left.
Qed.

Lemma Set_add_has (s : list value) (v : value) :
  ∃ x, x ∈ Set_add s v ∧ SameValueZero x v = true.
Proof.
  unfold Set_add. destruct (Set_has s v) eqn:Hhas.
  - by apply Set_has_true.
  - exists v. split; [|apply SameValueZero_refl].
    rewrite elem_of_app, list_elem_of_singleton. by right.
Qed.

Lemma SameValueZero_sym (x y : value) :
  SameValueZero x y = true → SameValueZero y x = true.
Proof.
  destruct x, y; simpl; try done;
    try (rewrite !bool_decide_eq_true; by intros ->).
  rewrite !orb_true_iff, !andb_true_iff, !eqb_rank. intuition congruence.
Qed.

Lemma SameValueZero_trans (x y z : value) :
  SameValueZero x y = true → SameValueZero y z = true → SameValueZero x z = true.
Proof.
  destruct x, y, z; simpl; try done;
    try (rewrite !bool_decide_eq_true; by intros -> ->).
  rewrite !orb_true_iff, !andb_true_iff, !eqb_rank. intuition congruence.
Qed.

(** A list without repetition is no longer than a list that holds an equal
    of each of its entries. *)
Lemma distinct_length_le (ids ids' : list value) :
  distinct ids →
  (∀ x, x ∈ ids → ∃ y, y ∈ ids' ∧ SameValueZero y x = true) →
  length ids ≤ length ids'.
Proof.
  revert ids'. induction ids as [|x ids IH]; intros ids' Hdistinct Hcover; simpl; [lia|].
  destruct (Hcover x) as (y & Hy & Hyx); [by left|].
  apply list_elem_of_split in Hy as (before & after & ->).
  rewrite length_app. simpl.
  assert (length ids ≤ length (before ++ after)) as Hle; [|rewrite length_app in Hle; lia].
  apply IH.
  - intros i j a b Hij Ha Hb. by apply (Hdistinct (S i) (S j) a b); [lia|..].
  - intros x' Hx'. destruct (Hcover x') as (y' & Hy' & Hyx'); [by right|].
    exists y'. split; [|done].
    apply elem_of_app in Hy' as [Hy'|Hy']; [apply elem_of_app; by left|].
    apply elem_of_cons in Hy' as [->|Hy']; [|apply elem_of_app; by right].
    apply list_elem_of_lookup in Hx' as [j Hj].
    assert (SameValueZero x x' = false) as Hdiff
      by (by apply (Hdistinct 0 (S j) x x'); [lia|..]).
    assert (SameValueZero x x' = true); [|congruence].
    eapply SameValueZero_trans; [by apply SameValueZero_sym|done].
Qed.

(** ** Grouped session counts *)

Section Grouping.
Context `{RT : Runtime}.
Variable groupBy : string.

Lemma count_event_skip (sessions : gmap string (list value)) (event : RUMEvent) :
  ¬ usable event → count_event groupBy sessions event = Normal sessions.
Proof.
  unfold usable, count_event. intros Hskip.
  by destruct (ToBoolean (optional_attributes event)).
Qed.

Lemma count_event_file (sessions : gmap string (list value)) (event : RUMEvent)
    (key : string) (id : value) :
  in_group groupBy key event →
  session_id (optional_attributes event) = Normal id →
  count_event groupBy sessions event = Normal (file_under key id sessions).
Proof.
  intros [Huse Hkey] Hid. unfold count_event, file_under.
  rewrite Huse, Hkey. simpl. rewrite Hid. simpl.
  by destruct (ToBoolean id).
Qed.

Lemma count_event_Normal (sessions sessions' : gmap string (list value)) (event : RUMEvent) :
  count_event groupBy sessions event = Normal sessions' →
  (¬ usable event ∧ sessions' = sessions) ∨
  (∃ key id, in_group groupBy key event ∧ session_id (optional_attributes event) = Normal id ∧
             sessions' = file_under key id sessions).
Proof.
  intros Hstep. destruct (ToBoolean (optional_attributes event)) eqn:Huse.
  - right. pose proof Hstep as Hfile.
    unfold count_event in Hstep. rewrite Huse in Hstep. simpl in Hstep.
    apply bind_Normal in Hstep as (key & Hkey & Hstep).
    apply bind_Normal in Hstep as (id & Hid & _).
    exists key, id. split_and!; [done|done|].
    rewrite (count_event_file sessions event key id) in Hfile by done. congruence.
  - left. rewrite count_event_skip in Hstep by (unfold usable; congruence).
    split; [unfold usable|]; congruence.
Qed.

(** The set under each key after [file_under]. *)
Lemma file_under_lookup (key : string) (id : value) (sessions : gmap string (list value))
    (k : string) :
  file_under key id sessions !! k =
    if decide (k = key)
    then Some (if ToBoolean id then Set_add (default [] (sessions !! key)) id
               else default [] (sessions !! key))
    else sessions !! k.
Proof.
  unfold file_under.
  destruct (decide (k = key)) as [->|Hne].
  - destruct (sessions !! key) as [set|] eqn:Hset.
    + rewrite bool_decide_eq_true_2 by eauto. simpl.
      destruct (ToBoolean id); [|done].
      by rewrite lookup_alter_eq, Hset.
    + rewrite bool_decide_eq_false_2 by (by intros [? ?]). simpl.
      destruct (ToBoolean id).
      * by rewrite lookup_alter_eq, lookup_insert_eq.
      * by rewrite lookup_insert_eq.
  - destruct (bool_decide (is_Some (sessions !! key))), (ToBoolean id);
      by rewrite ?lookup_alter_ne, ?lookup_insert_ne.
Qed.

Lemma sessions_inv_empty : sessions_inv groupBy [] ∅.
Proof.
  split.
  - intros k. rewrite lookup_empty. split.
    + by intros [? ?].
    + intros (e & He & _). by apply elem_of_nil in He.
  - intros k set Hk. by rewrite lookup_empty in Hk.
  - intros k set x Hk. by rewrite lookup_empty in Hk.
  - intros k set e id Hk. by rewrite lookup_empty in Hk.
  - intros e He. by apply elem_of_nil in He.
Qed.

Lemma in_group_functional (k k' : string) (e : RUMEvent) :
  in_group groupBy k e → in_group groupBy k' e → k = k'.
Proof. intros [_ Hk] [_ Hk']. congruence. Qed.

Lemma sessions_inv_skip (data : list RUMEvent) (sessions : gmap string (list value))
    (event : RUMEvent) :
  ¬ usable event →
  sessions_inv groupBy data sessions →
  sessions_inv groupBy (data ++ [event]) sessions.
Proof.
  intros Hskip [Hkeys Hdist Hsound Hcompl Hres].
  assert (Hold : ∀ e k, e ∈ data ++ [event] → in_group groupBy k e → e ∈ data).
  { intros e k He Hin. apply elem_of_app in He as [He|He]; [done|].
    apply list_elem_of_singleton in He as ->. by destruct Hin. }
  split.
  - intros k. rewrite Hkeys. split; intros (e & He & Hin); exists e.
    + split; [|done]. apply elem_of_app. by left.
    + split; [|done]. by eapply Hold.
  - done.
  - intros k set x Hk Hx. destruct (Hsound k set x Hk Hx) as (e & He & Hin & Hc).
    exists e. split_and!; try done. apply elem_of_app. by left.
  - intros k set e id Hk He Hin Hc. eapply Hcompl; eauto.
  - intros e He Huse. apply elem_of_app in He as [He|He]; [by apply Hres|].
    apply list_elem_of_singleton in He as ->. done.
Qed.

Lemma sessions_inv_file (data : list RUMEvent) (sessions : gmap string (list value))
    (event : RUMEvent) (key : string) (id : value) :
  in_group groupBy key event →
  session_id (optional_attributes event) = Normal id →
  sessions_inv groupBy data sessions →
  sessions_inv groupBy (data ++ [event]) (file_under key id sessions).
Proof.
  intros Hin Hid [Hkeys Hdist Hsound Hcompl Hres].
  assert (Hset : ∀ set, sessions !! key = Some set → default [] (sessions !! key) = set).
  { by intros set ->. }
  split.
  - intros k. rewrite file_under_lookup. destruct (decide (k = key)) as [->|Hne].
    + split; [|by eauto]. intros _. exists event. split; [|done].
      apply elem_of_app. right. by apply list_elem_of_singleton.
    + rewrite Hkeys. split; intros (e & He & Hine); exists e.
      * split; [|done]. apply elem_of_app. by left.
      * split; [|done]. apply elem_of_app in He as [He|He]; [done|].
        apply list_elem_of_singleton in He as ->.
        destruct Hne. by eapply in_group_functional.
  - intros k set. rewrite file_under_lookup. destruct (decide (k = key)) as [->|Hne].
    + intros [= <-].
      assert (distinct (default [] (sessions !! key))) as Hold.
      { destruct (sessions !! key) eqn:Hk; simpl; [by eapply Hdist|apply distinct_nil]. }
      destruct (ToBoolean id); [by apply Set_add_distinct|done].
    + apply Hdist.
  - intros k set x. rewrite file_under_lookup. destruct (decide (k = key)) as [->|Hne].
    + intros [= <-] Hx.
      assert (x ∈ default [] (sessions !! key) ∨ (x = id ∧ ToBoolean id = true))
        as [Hold|[-> Hid']].
      { destruct (ToBoolean id); [|by left].
        apply Set_add_elem_of in Hx as [?|?]; [by left|by right]. }
      * destruct (sessions !! key) as [set|] eqn:Hk; simpl in Hold;
          [|by apply elem_of_nil in Hold].
        destruct (Hsound key set x Hk Hold) as (e & He & Hine & Hc).
        exists e. split_and!; try done. apply elem_of_app. by left.
      * exists event. split_and!; try done.
        apply elem_of_app. right. by apply list_elem_of_singleton.
    + intros Hk Hx. destruct (Hsound k set x Hk Hx) as (e & He & Hine & Hc).
      exists e. split_and!; try done. apply elem_of_app. by left.
  - intros k set e id'. rewrite file_under_lookup.
    destruct (decide (k = key)) as [->|Hne].
    + intros [= <-] He Hine [Hid' Htrue].
      apply elem_of_app in He as [He|He].
      * assert (is_Some (sessions !! key)) as [set Hk] by (apply Hkeys; eauto).
        destruct (Hcompl key set e id' Hk He Hine (conj Hid' Htrue)) as (x & Hx & Hsame).
        exists x. split; [|done]. rewrite Hk. simpl.
        destruct (ToBoolean id); [by apply Set_add_mono|done].
      * apply list_elem_of_singleton in He as ->.
        assert (id' = id) as -> by congruence. rewrite Htrue.
        apply Set_add_has.
    + intros Hk He Hine Hc. apply elem_of_app in He as [He|He]; [by eapply Hcompl|].
      apply list_elem_of_singleton in He as ->.
      destruct Hne. by eapply in_group_functional.
  - intros e He Huse. apply elem_of_app in He as [He|He]; [by apply Hres|].
    apply list_elem_of_singleton in He as ->. by exists key.
Qed.

Lemma session_sets_inv (data : list RUMEvent) (sessions : gmap string (list value)) :
  session_sets data groupBy = Normal sessions → sessions_inv groupBy data sessions.
Proof.
  unfold session_sets. revert sessions.
  induction data as [|event data IH] using rev_ind; intros sessions Hrun.
  - simpl in Hrun. inversion Hrun. apply sessions_inv_empty.
  - rewrite for_of_snoc in Hrun. apply bind_Normal in Hrun as (before & Hrun & Hstep).
    apply IH in Hrun.
    apply count_event_Normal in Hstep as [[Hskip ->]|(key & id & Hin & Hid & ->)].
    + by apply sessions_inv_skip.
    + by apply sessions_inv_file.
Qed.

Lemma grouped_event_count_Normal (data : list RUMEvent) (counts : gmap string nat) :
  grouped_event_count data groupBy = Normal counts →
  ∃ sessions, session_sets data groupBy = Normal sessions ∧
              sessions_inv groupBy data sessions ∧ counts = length <$> sessions.
Proof.
  unfold grouped_event_count. intros Hrun.
  apply bind_Normal in Hrun as (sessions & Hrun & Hcounts).
  exists sessions. split_and!; [done|by apply session_sets_inv|by inversion Hcounts].
Qed.

End Grouping.

Section SameSets.
Context `{RT : Runtime}.
Variable groupBy : string.

Lemma file_under_same_sets (key : string) (id : value) (m m' : gmap string (list value)) :
  same_sets m m' → same_sets (file_under key id m) (file_under key id m').
Proof.
  intros Hsame k. rewrite !file_under_lookup.
  destruct (decide (k = key)); [|apply Hsame]. simpl. by rewrite (Hsame key).
Qed.

Lemma file_under_falsy (key : string) (id : value) (m : gmap string (list value)) :
  ToBoolean id = false → same_sets (file_under key id m) m.
Proof.
  intros Hfalsy k. rewrite file_under_lookup.
  destruct (decide (k = key)) as [->|]; [|done]. by rewrite Hfalsy.
Qed.

Lemma count_event_same_sets (m1 m2 m1' : gmap string (list value)) (event : RUMEvent) :
  same_sets m1 m2 →
  count_event groupBy m1 event = Normal m1' →
  ∃ m2', count_event groupBy m2 event = Normal m2' ∧ same_sets m1' m2'.
Proof.
  intros Hsame Hstep.
  apply count_event_Normal in Hstep as [[Hskip ->]|(key & id & Hin & Hid & ->)].
  - exists m2. by rewrite count_event_skip.
  - exists (file_under key id m2). rewrite (count_event_file _ _ _ key id) by done.
    split; [done|]. by apply file_under_same_sets.
Qed.

Lemma for_of_same_sets (data : list RUMEvent) (m1 m2 m1' : gmap string (list value)) :
  same_sets m1 m2 →
  for_of (count_event groupBy) m1 data = Normal m1' →
  ∃ m2', for_of (count_event groupBy) m2 data = Normal m2' ∧ same_sets m1' m2'.
Proof.
  revert m1 m2. induction data as [|event data IH]; intros m1 m2 Hsame Hrun; simpl in *.
  - exists m2. split; [done|]. by inversion Hrun; subst.
  - apply bind_Normal in Hrun as (m1'' & Hstep & Hrun).
    destruct (count_event_same_sets _ _ _ _ Hsame Hstep) as (m2'' & -> & Hsame'').
    simpl. by eapply IH.
Qed.

(** An event whose [session?.id] is falsy leaves every session set as it
    was (it may create an empty one). *)
Lemma count_event_falsy_id (m m' : gmap string (list value)) (event : RUMEvent) (id : value) :
  session_id (optional_attributes event) = Normal id →
  ToBoolean id = false →
  count_event groupBy m event = Normal m' →
  same_sets m' m.
Proof.
  intros Hid Hfalsy Hstep.
  apply count_event_Normal in Hstep as [[Hskip ->]|(key & id' & Hin & Hid' & ->)]; [done|].
  assert (id' = id) as -> by congruence. by apply file_under_falsy.
Qed.

End SameSets.

(** Two lists of the session identifiers of a group have the same length:
    the number of distinct session identifiers of the group. *)
Lemma lists_sessions_length `{RT : Runtime}
    (data : list RUMEvent) (groupBy key : string) (ids ids' : list value) :
  lists_sessions data groupBy key ids →
  lists_sessions data groupBy key ids' →
  length ids = length ids'.
Proof.
  assert (Hle : ∀ l l', lists_sessions data groupBy key l →
                        lists_sessions data groupBy key l' → length l ≤ length l').
  { intros l l' (Hdistinct & Hsound & _) (_ & _ & Hcomplete).
    apply distinct_length_le; [done|]. intros x Hx.
    destruct (Hsound x Hx) as (e & He & Hin & Hcarries). by eapply Hcomplete. }
  intros Hids Hids'. apply Nat.le_antisymm; by apply Hle.
Qed.

(** The group that the handler files an event under is the group of the
    event: [String] of what [getValueByPath] finds at the [groupBy] path, or
    ["unknown"]. *)
Lemma in_group_group_key_is `{RT : Runtime} (groupBy key : string) (event : RUMEvent) :
  in_group groupBy key event ↔ group_key_is groupBy key event.
Proof.
  unfold in_group, group_key_is, groupValue_of. split.
  - intros [Huse Hkey]. split; [done|].
    apply bind_Normal in Hkey as (result & Hresult & Hkey).
    exists result. split; [done|].
    destruct (found result); [done|]. by inversion Hkey.
  - intros [Huse (result & Hresult & Hkey)]. split; [done|].
    rewrite Hresult. simpl. destruct (found result); [done|]. by subst key.
Qed.

(** The truthy values of [session?.id] are the identifiers that stand at
    the path [session.id]: the optional chain answers [undefined], which is
    falsy, where [session] is [null] or [undefined], and reads [id] from
    [session] everywhere else. *)
Lemma carries_session_id_is `{RT : Runtime} (id : value) (event : RUMEvent) :
  carries id event ↔ session_id_is id event.
Proof.
  unfold carries, session_id_is, session_id. split.
  - intros [Hid Htrue].
    apply bind_Normal in Hid as (session & Hsession & Hid).
    exists session. destruct (is_nullish session).
    + inversion Hid as [Hundefined]. subst id. discriminate Htrue.
    + done.
  - intros (session & Hsession & Hid & Htrue). split; [|done].
    rewrite Hsession. simpl.
    destruct session; simpl in *; try done.
Qed.

Lemma lists_sessions_distinct_sessions_of_group `{RT : Runtime}
    (data : list RUMEvent) (groupBy key : string) (ids : list value) :
  lists_sessions data groupBy key ids ↔ distinct_sessions_of_group data groupBy key ids.
Proof.
  unfold lists_sessions, distinct_sessions_of_group. split.
  - intros (Hdistinct & Hsound & Hcomplete). split_and!; [done| |].
    + intros x Hx. destruct (Hsound x Hx) as (e & He & Hin & Hcarries).
      exists e. split_and!; [done| |].
      * by apply in_group_group_key_is.
      * by apply carries_session_id_is.
    + intros e id He Hin Hid. apply (Hcomplete e id He).
      * by apply in_group_group_key_is.
      * by apply carries_session_id_is.
  - intros (Hdistinct & Hsound & Hcomplete). split_and!; [done| |].
    + intros x Hx. destruct (Hsound x Hx) as (e & He & Hin & Hid).
      exists e. split_and!; [done| |].
      * by apply in_group_group_key_is.
      * by apply carries_session_id_is.
    + intros e id He Hin Hcarries. apply (Hcomplete e id He).
      * by apply in_group_group_key_is.
      * by apply carries_session_id_is.
Qed.

(** C3. When [get_rum_grouped_event_count] reports a count for a group key,
    it is the number of distinct session identifiers among the events of
    that group, where the group of an event is what [getValueByPath] finds
    at the [groupBy] path and its session identifier what stands at the
    fixed path [session.id] of its attribute map: the count is the length of
    a list of these identifiers that holds each once (up to the equality of
    [Set]), and of every such list. In particular two events of one group
    with the same session id are counted once. *)
Theorem grouped_event_count_distinct_sessions `{RT : Runtime}
    (data : list RUMEvent) (groupBy : string) (counts : gmap string nat) :
  grouped_event_count data groupBy = Normal counts →
  (∀ (k : string) (n : nat), counts !! k = Some n →
     (∃ ids, distinct_sessions_of_group data groupBy k ids ∧ length ids = n) ∧
     (∀ ids, distinct_sessions_of_group data groupBy k ids → length ids = n)) ∧
  (∀ (e1 e2 : RUMEvent) (k : string) (id1 id2 : value),
     data = [e1; e2] →
     group_key_is groupBy k e1 → group_key_is groupBy k e2 →
     session_id_is id1 e1 → session_id_is id2 e2 → SameValueZero id1 id2 = true →
     counts !! k = Some 1).
Proof.
  intros Hrun. split.
  - apply grouped_event_count_Normal in Hrun as (sessions & _ & Hinv & ->).
    intros k n. rewrite lookup_fmap. destruct (sessions !! k) as [set|] eqn:Hk; [|done].
    intros [= <-].
    assert (lists_sessions data groupBy k set) as Hset.
    { split_and!.
      - by eapply inv_distinct.
      - intros x. by eapply inv_sound.
      - intros e id. by eapply inv_complete. }
    split; [exists set; split; [by apply lists_sessions_distinct_sessions_of_group|done]|].
    intros ids Hids. apply lists_sessions_distinct_sessions_of_group in Hids.
    by eapply lists_sessions_length.
  - intros e1 e2 k id1 id2 -> Hin1 Hin2 Hid1 Hid2 Hsame.
    apply in_group_group_key_is in Hin1, Hin2.
    apply carries_session_id_is in Hid1 as [Hid1 Htrue1].
    apply carries_session_id_is in Hid2 as [Hid2 Htrue2].
    unfold grouped_event_count, session_sets in Hrun. simpl in Hrun.
    rewrite (count_event_file groupBy _ e1 k id1) in Hrun by done. simpl in Hrun.
    rewrite (count_event_file groupBy _ e2 k id2) in Hrun by done. simpl in Hrun.
    inversion Hrun as [Hcounts]. rewrite lookup_fmap, !file_under_lookup.
    rewrite !decide_True by done. rewrite Htrue1, Htrue2, lookup_empty. simpl.
    unfold Set_add at 2. simpl. unfold Set_add. simpl. by rewrite Hsame.
Qed.

(** C4. The group key of an event with a usable attributes payload is
    ["unknown"] when [getValueByPath] does not find the [groupBy] path, and
    [String] of the value it finds otherwise; and in every result of
    [get_rum_grouped_event_count] the event is filed under its group key:
    the key is there, with a count above 0 if the event carries a session
    id. *)
Theorem grouped_event_count_group_key `{RT : Runtime}
    (groupBy : string) (event : RUMEvent) (result : resolution) :
  usable event →
  getValueByPath (optional_attributes event) (split "." groupBy) 0 = Normal result →
  groupValue_of (optional_attributes event) groupBy
    = (if found result then js_String (value_of result) else Normal "unknown") ∧
  (∀ data counts, grouped_event_count data groupBy = Normal counts → event ∈ data →
     ∃ key n,
       (if found result then js_String (value_of result) = Normal key
        else key = "unknown") ∧
       counts !! key = Some n ∧ (∀ id, carries id event → 0 < n)).
Proof.
  intros Huse Hresult.
  assert (groupValue_of (optional_attributes event) groupBy
          = (if found result then js_String (value_of result) else Normal "unknown"))
    as Hgroup by (unfold groupValue_of; by rewrite Hresult).
  split; [done|]. intros data counts Hrun Hevent.
  apply grouped_event_count_Normal in Hrun as (sessions & _ & Hinv & ->).
  destruct (inv_resolved _ _ _ Hinv event Hevent Huse) as (key & Hin).
  pose proof Hin as [_ Hkey]. rewrite Hgroup in Hkey.
  assert (is_Some (sessions !! key)) as [set Hset] by (eapply inv_keys; eauto).
  exists key, (length set). split_and!.
  - destruct (found result); [done|]. by inversion Hkey.
  - by rewrite lookup_fmap, Hset.
  - intros id Hid.
    destruct (inv_complete _ _ _ Hinv key set event id Hset Hevent Hin Hid) as (x & Hx & _).
    destruct set; [by apply elem_of_nil in Hx|simpl; lia].
Qed.

(** C5. A group key that some usable event resolves to, and none of whose
    events carries a session id, is in the result with the count 0. *)
Theorem grouped_event_count_zero `{RT : Runtime}
    (data : list RUMEvent) (groupBy : string) (counts : gmap string nat) (key : string) :
  grouped_event_count data groupBy = Normal counts →
  (∃ e, e ∈ data ∧ in_group groupBy key e) →
  (∀ e id, e ∈ data → in_group groupBy key e → ¬ carries id e) →
  counts !! key = Some 0.
Proof.
  intros Hrun Hsome Hnone.
  apply grouped_event_count_Normal in Hrun as (sessions & _ & Hinv & ->).
  assert (is_Some (sessions !! key)) as [set Hset] by (by eapply inv_keys).
  rewrite lookup_fmap, Hset. simpl. f_equal.
  destruct set as [|x set]; [done|].
  destruct (inv_sound _ _ _ Hinv key (x :: set) x Hset) as (e & He & Hin & Hc);
    [by left|].
  by destruct (Hnone e x He Hin).
Qed.

(** C10. An event whose [session?.id] is falsy adds nothing to any session
    set, and the counts of the groups are what they are without the event. *)
Theorem falsy_session_id_not_counted `{RT : Runtime}
    (groupBy : string) (event : RUMEvent) (id : value) :
  session_id (optional_attributes event) = Normal id →
  ToBoolean id = false →
  (∀ sessions sessions', count_event groupBy sessions event = Normal sessions' →
     ∀ k, default [] (sessions' !! k) = default [] (sessions !! k)) ∧
  (∀ before after counts,
     grouped_event_count (before ++ event :: after) groupBy = Normal counts →
     ∃ counts', grouped_event_count (before ++ after) groupBy = Normal counts' ∧
                ∀ k, default 0 (counts !! k) = default 0 (counts' !! k)).
Proof.
  intros Hid Hfalsy. split.
  - intros sessions sessions' Hstep. by eapply count_event_falsy_id.
  - intros before after counts Hrun.
    unfold grouped_event_count, session_sets in *.
    apply bind_Normal in Hrun as (sessions & Hrun & Hcounts).
    rewrite for_of_app in Hrun. apply bind_Normal in Hrun as (m & Hbefore & Hrun).
    simpl in Hrun. apply bind_Normal in Hrun as (m' & Hstep & Hafter).
    pose proof (count_event_falsy_id groupBy _ _ _ _ Hid Hfalsy Hstep) as Hsame.
    destruct (for_of_same_sets groupBy _ _ _ _ Hsame Hafter) as (sessions2 & Hafter2 & Hsame2).
    exists (length <$> sessions2). rewrite for_of_app, Hbefore. simpl. rewrite Hafter2.
    split; [done|]. intros k. inversion Hcounts as [Heq].
    rewrite !lookup_fmap. specialize (Hsame2 k).
    destruct (sessions !! k), (sessions2 !! k); simpl in *; by subst.
Qed.

(** ** Page performance *)

(** [metrics] read after a write: the object behaves as a map from names to
    arrays, the key ["__proto__"] included. *)
Lemma metrics_get_set (metrics : MetricsObject) (name name' : string) (values : list float) :
  metrics_get (metrics_set metrics name values) name' =
    if bool_decide (name = name') then Some values else metrics_get metrics name'.
Proof.
  unfold metrics_get, metrics_set.
  repeat case_bool_decide; simplify_eq; simpl;
    by rewrite ?lookup_insert_eq, ?lookup_insert_ne.
Qed.

(** No assignment gives [metrics] an own property ["__proto__"]. *)
Lemma metrics_set_own_proto (metrics : MetricsObject) (name : string) (values : list float) :
  own metrics !! "__proto__" = None →
  own (metrics_set metrics name values) !! "__proto__" = None.
Proof.
  intros Hown. unfold metrics_set.
  destruct (bool_decide_reflect (name = "__proto__")) as [->|Hname]; simpl; [done|].
  by rewrite lookup_insert_ne.
Qed.

(** The own properties are the assigned names other than ["__proto__"]. *)
Lemma metrics_get_own (metrics : MetricsObject) (name : string) :
  name ≠ "__proto__" → own metrics !! name = metrics_get metrics name.
Proof.
  intros Hname. unfold metrics_get. by rewrite bool_decide_eq_false_2.
Qed.

Section Performance.
Context `{RT : Runtime}.

Lemma initial_metrics_get (metricNames : list string) (name : string) :
  metrics_get (initial_metrics metricNames) name =
    if bool_decide (name ∈ metricNames) then Some [] else None.
Proof.
  unfold initial_metrics.
  assert (Hgen : ∀ metrics,
    metrics_get (fold_left (λ acc n, metrics_set acc n []) metricNames metrics) name =
      if bool_decide (name ∈ metricNames) then Some [] else metrics_get metrics name).
  { induction metricNames as [|n names IH]; intros metrics; cbn [fold_left].
    - case_bool_decide as Hin; [by apply elem_of_nil in Hin|done].
    - rewrite IH, metrics_get_set.
      destruct (bool_decide_reflect (n = name)) as [->|Hne].
      + rewrite (bool_decide_eq_true_2 (name ∈ name :: names)) by set_solver.
        by destruct (bool_decide (name ∈ names)).
      + destruct (bool_decide_reflect (name ∈ names)) as [Hin|Hnotin].
        * by rewrite bool_decide_eq_true_2 by set_solver.
        * rewrite bool_decide_eq_false_2; [done|].
          intros Hin. apply elem_of_cons in Hin as [Heq|Hin]; [by destruct Hne|done]. }
  rewrite Hgen. destruct (bool_decide (name ∈ metricNames)); [done|].
  unfold metrics_get, empty_object. simpl.
  destruct (bool_decide (name = "__proto__")); [done|apply lookup_empty].
Qed.

Lemma initial_metrics_own_proto (metricNames : list string) :
  own (initial_metrics metricNames) !! "__proto__" = None.
Proof.
  unfold initial_metrics.
  assert (Hgen : ∀ metrics, own metrics !! "__proto__" = None →
    own (fold_left (λ acc n, metrics_set acc n []) metricNames metrics) !! "__proto__" = None).
  { induction metricNames as [|n names IH]; intros metrics Hown; simpl; [done|].
    by apply IH, metrics_set_own_proto. }
  apply Hgen, lookup_empty.
Qed.

Lemma fmap_app_nil (o : option (list float)) : (λ s, s ++ []) <$> o = o.
Proof. destruct o; simpl; [by rewrite app_nil_r|done]. Qed.

Lemma collect_metric_spec (attrs : value) (metrics metrics' : MetricsObject)
    (metricName : string) :
  ToBoolean attrs = true →
  collect_metric attrs metrics metricName = Normal metrics' →
  (∀ name, metrics_get metrics' name =
     (λ s, s ++ if bool_decide (metricName = name) then sample_of attrs name else [])
       <$> metrics_get metrics name) ∧
  (own metrics !! "__proto__" = None → own metrics' !! "__proto__" = None).
Proof.
  intros Huse Hstep. unfold collect_metric in Hstep.
  assert (is_nullish attrs = false) as Hnn by (by destruct attrs).
  rewrite Hnn in Hstep.
  apply bind_Normal in Hstep as (v & Hv & Hstep).
  assert (Hskip : (∀ n, v ≠ VNumber n) → metrics' = metrics →
    (∀ name, metrics_get metrics' name =
       (λ s, s ++ if bool_decide (metricName = name) then sample_of attrs name else [])
         <$> metrics_get metrics name) ∧
    (own metrics !! "__proto__" = None → own metrics' !! "__proto__" = None)).
  { intros Hv' ->. split; [|done]. intros name.
    destruct (bool_decide_reflect (metricName = name)) as [->|Hne];
      [|by rewrite fmap_app_nil].
    unfold sample_of. rewrite Hv.
    destruct v; try (by rewrite fmap_app_nil). by destruct (Hv' n). }
  destruct v as [| | |n| | | |]; try (apply Hskip; [done|congruence]).
  destruct (metrics_get metrics metricName) as [values|] eqn:Hget; [|done].
  inversion Hstep as [Hmetrics]. split.
  - intros name. rewrite metrics_get_set.
    destruct (bool_decide_reflect (metricName = name)) as [->|Hne].
    + rewrite Hget. simpl. unfold sample_of. by rewrite Hv.
    + by rewrite fmap_app_nil.
  - apply metrics_set_own_proto.
Qed.

Lemma collect_metrics_spec (attrs : value) (metricNames : list string)
    (metrics metrics' : MetricsObject) :
  ToBoolean attrs = true →
  for_of (collect_metric attrs) metrics metricNames = Normal metrics' →
  (∀ name, metrics_get metrics' name =
     (λ s, s ++ flat_map (λ metricName,
                  if bool_decide (metricName = name) then sample_of attrs name else [])
                  metricNames)
       <$> metrics_get metrics name) ∧
  (own metrics !! "__proto__" = None → own metrics' !! "__proto__" = None).
Proof.
  intros Huse. revert metrics.
  induction metricNames as [|metricName names IH]; intros metrics Hrun; simpl in *.
  - inversion Hrun; subst. split; [|done]. intros name. by rewrite fmap_app_nil.
  - apply bind_Normal in Hrun as (metrics1 & Hstep & Hrun).
    apply collect_metric_spec in Hstep as [Hstep Hown1]; [|done].
    apply IH in Hrun as [Hrun Hown2]. split; [|by auto].
    intros name. rewrite Hrun, Hstep.
    destruct (metrics_get metrics name); simpl; [|done]. by rewrite app_assoc.
Qed.

Lemma collect_event_spec (metricNames : list string) (metrics metrics' : MetricsObject)
    (event : RUMEvent) :
  collect_event metricNames metrics event = Normal metrics' →
  (∀ name, metrics_get metrics' name =
     (λ s, s ++ samples_of metricNames name event) <$> metrics_get metrics name) ∧
  (own metrics !! "__proto__" = None → own metrics' !! "__proto__" = None).
Proof.
  unfold collect_event, samples_of.
  destruct (ToBoolean (optional_attributes event)) eqn:Huse; simpl.
  - by apply collect_metrics_spec.
  - intros [= <-]. split; [|done]. intros name. by rewrite fmap_app_nil.
Qed.

Lemma collect_events_spec (data : list RUMEvent) (metricNames : list string)
    (metrics metrics' : MetricsObject) :
  for_of (collect_event metricNames) metrics data = Normal metrics' →
  (∀ name, metrics_get metrics' name =
     (λ s, s ++ series data metricNames name) <$> metrics_get metrics name) ∧
  (own metrics !! "__proto__" = None → own metrics' !! "__proto__" = None).
Proof.
  revert metrics. induction data as [|event data IH]; intros metrics Hrun; simpl in *.
  - inversion Hrun; subst. split; [|done]. intros name. by rewrite fmap_app_nil.
  - apply bind_Normal in Hrun as (metrics1 & Hstep & Hrun).
    apply collect_event_spec in Hstep as [Hstep Hown1].
    apply IH in Hrun as [Hrun Hown2]. split; [|by auto].
    intros name. rewrite Hrun, Hstep.
    destruct (metrics_get metrics name); simpl; [|done]. by rewrite app_assoc.
Qed.

(** After the loop, [metrics[name]] is the series of [name] for every
    requested name, and [metrics] has no own property ["__proto__"]. *)
Lemma collected_metrics_spec (data : list RUMEvent) (metricNames : list string)
    (metrics : MetricsObject) :
  collected_metrics data metricNames = Normal metrics →
  (∀ name, metrics_get metrics name =
     if bool_decide (name ∈ metricNames) then Some (series data metricNames name) else None) ∧
  own metrics !! "__proto__" = None.
Proof.
  unfold collected_metrics. intros Hrun.
  apply collect_events_spec in Hrun as [Hrun Hown]. split.
  - intros name. rewrite Hrun, initial_metrics_get.
    by destruct (bool_decide (name ∈ metricNames)).
  - apply Hown, initial_metrics_own_proto.
Qed.

(** Every sample of a series is a number that the reducer yields for a
    usable event. *)
Lemma series_elem_of (data : list RUMEvent) (metricNames : list string) (name : string)
    (x : float) :
  x ∈ series data metricNames name →
  ∃ event, event ∈ data ∧ usable event ∧
    reduce_path (optional_attributes event) (split "." name) = Normal (VNumber x).
Proof.
  unfold series. rewrite list_elem_of_In, in_flat_map.
  intros (event & Hevent & Hx). exists event.
  rewrite <- list_elem_of_In in Hevent. split; [done|].
  unfold samples_of in Hx. unfold usable.
  destruct (ToBoolean (optional_attributes event)); [|done]. split; [done|].
  apply in_flat_map in Hx as (metricName & _ & Hx).
  destruct (bool_decide (metricName = name)); [|done].
  unfold sample_of in Hx.
  destruct (reduce_path (optional_attributes event) (split "." name)) as [v|]; [|done].
  destruct v; try done. by destruct Hx as [->|[]].
Qed.

End Performance.

(** C7. After the loop of [get_rum_page_performance], the array under a
    metric name is exactly the series of that name: every entry is a number
    that the reducer yielded, as a value of type number, for a usable event,
    and an event whose value at the path is not of type number (a string
    such as "42", a boolean, [undefined]) adds nothing. *)
Theorem series_holds_only_numbers `{RT : Runtime}
    (data : list RUMEvent) (metricNames : list string) (metrics : MetricsObject)
    (name : string) (values : list float) :
  collected_metrics data metricNames = Normal metrics →
  metrics_get metrics name = Some values →
  values = series data metricNames name ∧
  (∀ x, x ∈ values →
     ∃ event, event ∈ data ∧ usable event ∧
       reduce_path (optional_attributes event) (split "." name) = Normal (VNumber x)) ∧
  (∀ event,
     (∀ x, reduce_path (optional_attributes event) (split "." name) ≠ Normal (VNumber x)) →
     samples_of metricNames name event = []).
Proof.
  intros Hrun Hget. apply collected_metrics_spec in Hrun as [Hrun _].
  rewrite Hrun in Hget. destruct (bool_decide (name ∈ metricNames)); [|done].
  inversion Hget as [Hvalues]. split_and!; [done| |].
  - intros x. apply series_elem_of.
  - intros event Hnone. unfold samples_of.
    destruct (ToBoolean (optional_attributes event)); [|done].
    assert (sample_of (optional_attributes event) name = []) as ->.
    { unfold sample_of.
      destruct (reduce_path (optional_attributes event) (split "." name)) as [v|]; [|done].
      destruct v; try done. by destruct (Hnone n). }
    clear Hrun Hget Hvalues.
    induction metricNames as [|metricName names IH]; simpl; [done|].
    by destruct (bool_decide (metricName = name)).
Qed.

(** C6 fails for the metric name ["__proto__"]: [acc[name] = []] then
    replaces the prototype of [metrics] instead of creating a property, so
    [Object.entries(metrics)] has no entry for the name and the handler
    reports no summary for it, where the specification asks for the four
    zeros. *)
Theorem get_rum_page_performance_omits_proto (RT : Runtime) :
  run empty_api
    (get_rum_page_performance
       {| GetRumPagePerformance.query := "*";
          GetRumPagePerformance.from := 0;
          GetRumPagePerformance.to := 1;
          GetRumPagePerformance.metricNames := ["__proto__"] |})
  = Normal {| label := "Page performance metrics: "; json := PerformanceMetrics ∅ |}.
Proof. reflexivity. Qed.

(** For every other requested name the summary is there: the four zeros for
    an empty series, else the sum over the count, [Math.min], [Math.max] and
    the count of the series. ["__proto__"] never has a summary. *)
Theorem page_performance_summaries `{RT : Runtime}
    (data : list RUMEvent) (metricNames : list string)
    (results : gmap string MetricSummary) (name : string) :
  page_performance data metricNames = Normal results →
  name ∈ metricNames →
  name ≠ "__proto__" →
  results !! "__proto__" = None ∧
  results !! name = Some
    (match series data metricNames name with
     | [] => {| avg := 0; min := 0; max := 0; count := 0 |}
     | values =>
         {| avg := sum values / Number_of_nat (length values);
            min := Math_min values;
            max := Math_max values;
            count := length values |}
     end).
Proof.
  unfold page_performance. intros Hrun Hin Hname.
  apply bind_Normal in Hrun as (metrics & Hrun & Hresults).
  inversion Hresults as [Hresults']. clear Hresults.
  apply collected_metrics_spec in Hrun as [Hget Hown].
  rewrite !lookup_fmap, Hown, metrics_get_own, Hget by done.
  rewrite bool_decide_eq_true_2 by done. split; [done|]. simpl. f_equal.
  unfold summarize. by destruct (series data metricNames name).
Qed.

(** ** Requests and errors *)

(** C8. The filter that the two aggregating handlers send: the grouped
    count leaves [filterQuery] undefined for the query ["*"] and sends any
    other query as it is; page performance sends ["@type:view"] for ["*"]
    and ["@type:view "] followed by the query otherwise. Neither ever sends
    ["*"]. *)
Theorem wildcard_query_filters `{RT : Runtime}
    (grouped : GetRumGroupedEventCount.params) (performance : GetRumPagePerformance.params) :
  let query := GetRumGroupedEventCount.query grouped in
  let query' := GetRumPagePerformance.query performance in
  filterQuery <$> sent (get_rum_grouped_event_count grouped)
    = Some (if bool_decide (query = "*") then None else Some query) ∧
  filterQuery <$> sent (get_rum_page_performance performance)
    = Some (Some (if bool_decide (query' = "*") then "@type:view"
                  else "@type:view " +:+ query')) ∧
  filterQuery <$> sent (get_rum_grouped_event_count grouped) ≠ Some (Some "*") ∧
  filterQuery <$> sent (get_rum_page_performance performance) ≠ Some (Some "*").
Proof.
  intros query query'. simpl. fold query query'. split_and!.
  - by destruct (decide (query = "*")) as [->|Hne];
      [|rewrite bool_decide_eq_true_2, bool_decide_eq_false_2].
  - by destruct (decide (query' = "*")) as [->|Hne];
      [|rewrite bool_decide_eq_true_2, bool_decide_eq_false_2].
  - destruct (decide (query = "*")) as [Heq|Hne].
    + by rewrite bool_decide_eq_false_2 by (by intros []).
    + rewrite bool_decide_eq_true_2 by done. congruence.
  - by destruct (bool_decide (query' ≠ "*")).
Qed.

Lemma only_TypeError_Normal {A : Type} (a : A) : only_TypeError (Normal a).
Proof. by intros e. Qed.

Lemma only_TypeError_bind {A B : Type} (c : completion A) (k : A → completion B) :
  only_TypeError c → (∀ a, only_TypeError (k a)) → only_TypeError (x ← c; k x).
Proof.
  intros Hc Hk e. destruct c as [a|e']; simpl; [apply Hk|].
  intros [= <-]. by apply Hc.
Qed.

Lemma only_TypeError_or {A : Type} (o : option A) : only_TypeError (or_TypeError o).
Proof. destruct o; intros e; simpl; congruence. Qed.

Lemma only_TypeError_for_of {S A : Type} (step : S → A → completion S) (s : S) (l : list A) :
  (∀ s x, only_TypeError (step s x)) → only_TypeError (for_of step s l).
Proof.
  intros Hstep. revert s. induction l as [|x l IH]; intros s; simpl.
  - apply only_TypeError_Normal.
  - by apply only_TypeError_bind.
Qed.

Section OnlyTypeErrors.
Context `{RT : Runtime}.

Lemma only_TypeError_Get (v : value) (key : string) : only_TypeError (Get v key).
Proof.
  destruct v; simpl; try apply only_TypeError_or; try (by intros e [= <-]).
  - destruct (bool_decide (key = "length")); [apply only_TypeError_Normal|].
    destruct (array_index key ≫= char_at s);
      [apply only_TypeError_Normal|apply only_TypeError_or].
  - destruct (bool_decide (key = "length")); [apply only_TypeError_Normal|].
    destruct (array_index key ≫= (elems !!.));
      [apply only_TypeError_Normal|apply only_TypeError_or].
  - destruct (own_property key props);
      [apply only_TypeError_Normal|apply only_TypeError_or].
Qed.

Lemma only_TypeError_js_String (v : value) : only_TypeError (js_String v).
Proof.
  destruct v as [| |[]| | | | |]; simpl;
    try apply only_TypeError_Normal; apply only_TypeError_or.
Qed.

Lemma only_TypeError_getValueByPath (obj : value) (path : list string) (index : nat) :
  only_TypeError (getValueByPath obj path index).
Proof.
  unfold getValueByPath. generalize (drop index path) as rest. clear path index.
  intros rest. revert obj. induction rest as [|key rest IH]; intros obj; simpl.
  - apply only_TypeError_Normal.
  - apply only_TypeError_bind; [apply only_TypeError_Get|].
    intros x. destruct (is_undefined x); [apply only_TypeError_Normal|apply IH].
Qed.

Lemma only_TypeError_reduce_path (acc : value) (parts : list string) :
  only_TypeError (reduce_path acc parts).
Proof.
  revert acc. induction parts as [|part parts IH]; intros acc; simpl.
  - apply only_TypeError_Normal.
  - apply only_TypeError_bind; [|done]. unfold reduce_step.
    destruct (ToBoolean acc); [apply only_TypeError_Get|apply only_TypeError_Normal].
Qed.

Lemma only_TypeError_grouped_event_count (data : list RUMEvent) (groupBy : string) :
  only_TypeError (grouped_event_count data groupBy).
Proof.
  unfold grouped_event_count, session_sets.
  apply only_TypeError_bind; [|intros; apply only_TypeError_Normal].
  apply only_TypeError_for_of. intros sessions event. unfold count_event.
  destruct (negb _); [apply only_TypeError_Normal|].
  apply only_TypeError_bind.
  { unfold groupValue_of. apply only_TypeError_bind; [apply only_TypeError_getValueByPath|].
    intros result. destruct (found result);
      [apply only_TypeError_js_String|apply only_TypeError_Normal]. }
  intros groupValue. apply only_TypeError_bind.
  { unfold session_id. apply only_TypeError_bind; [apply only_TypeError_Get|].
    intros session. destruct (is_nullish session);
      [apply only_TypeError_Normal|apply only_TypeError_Get]. }
  intros id. destruct (ToBoolean id); apply only_TypeError_Normal.
Qed.

Lemma only_TypeError_page_performance (data : list RUMEvent) (metricNames : list string) :
  only_TypeError (page_performance data metricNames).
Proof.
  unfold page_performance, collected_metrics.
  apply only_TypeError_bind; [|intros; apply only_TypeError_Normal].
  apply only_TypeError_for_of. intros metrics event. unfold collect_event.
  destruct (negb _); [apply only_TypeError_Normal|].
  apply only_TypeError_for_of. intros metrics' metricName. unfold collect_metric.
  destruct (is_nullish _); [apply only_TypeError_Normal|].
  apply only_TypeError_bind; [apply only_TypeError_reduce_path|].
  intros v. destruct v; try apply only_TypeError_Normal.
  destruct (metrics_get metrics' metricName); [apply only_TypeError_Normal|].
  by intros e [= <-].
Qed.

End OnlyTypeErrors.

(** C9 fails for [get_rum_grouped_event_count]: with data that is not
    null, one event with the attribute map [{ a: null }], and grouping by
    [a.b], the handler throws the [TypeError] of [getValueByPath] (see C1). *)
Theorem get_rum_grouped_event_count_throws_with_data (RT : Runtime) :
  run null_attribute_api
    (get_rum_grouped_event_count
       {| GetRumGroupedEventCount.query := "*";
          GetRumGroupedEventCount.from := 0;
          GetRumGroupedEventCount.to := 1;
          GetRumGroupedEventCount.groupBy := "a.b" |})
  = Throw TypeError.
Proof. reflexivity. Qed.

(** Each handler throws its no-data error exactly when the response has no
    data: "No RUM applications data returned" for [get_rum_applications],
    "No RUM events data returned" for the four others; the error leaves no
    result, and nothing else that a handler does throws an error of that
    message. An empty array of data is data: it gives a result. *)
Theorem no_data_errors `{RT : Runtime} (apiInstance : RUMApi)
    (events : GetRumEvents.params) (grouped : GetRumGroupedEventCount.params)
    (performance : GetRumPagePerformance.params) (waterfall : GetRumPageWaterfall.params) :
  (run apiInstance get_rum_applications
     = Throw (Error "No RUM applications data returned") ↔
   no_data apiInstance get_rum_applications) ∧
  (run apiInstance (get_rum_events events)
     = Throw (Error "No RUM events data returned") ↔
   no_data apiInstance (get_rum_events events)) ∧
  (run apiInstance (get_rum_page_waterfall waterfall)
     = Throw (Error "No RUM events data returned") ↔
   no_data apiInstance (get_rum_page_waterfall waterfall)) ∧
  (run apiInstance (get_rum_grouped_event_count grouped)
     = Throw (Error "No RUM events data returned") ↔
   no_data apiInstance (get_rum_grouped_event_count grouped)) ∧
  (run apiInstance (get_rum_page_performance performance)
     = Throw (Error "No RUM events data returned") ↔
   no_data apiInstance (get_rum_page_performance performance)) ∧
  (empty_data apiInstance get_rum_applications →
   run apiInstance get_rum_applications
     = Normal {| label := "RUM applications: "; json := Applications [] |}) ∧
  (empty_data apiInstance (get_rum_events events) →
   run apiInstance (get_rum_events events)
     = Normal {| label := "RUM events data: "; json := Events [] |}) ∧
  (empty_data apiInstance (get_rum_page_waterfall waterfall) →
   run apiInstance (get_rum_page_waterfall waterfall)
     = Normal {| label := "Waterfall data: "; json := Events [] |}) ∧
  (empty_data apiInstance (get_rum_grouped_event_count grouped) →
   run apiInstance (get_rum_grouped_event_count grouped)
     = Normal {| label := "Session counts (grouped by "
                          +:+ GetRumGroupedEventCount.groupBy grouped +:+ "): ";
                 json := SessionCounts ∅ |}) ∧
  (empty_data apiInstance (get_rum_page_performance performance) →
   ∃ result, run apiInstance (get_rum_page_performance performance) = Normal result).
Proof.
  unfold no_data, empty_data. simpl. split_and!.
  - by destruct (applications_data _).
  - by destruct (events_data _).
  - by destruct (events_data _).
  - destruct (events_data _) as [data|]; [|done]. split; [|done].
    intros Hthrow. exfalso.
    pose proof (only_TypeError_grouped_event_count data
                  (GetRumGroupedEventCount.groupBy grouped)) as Honly.
    destruct (grouped_event_count _ _) as [counts|e]; simpl in Hthrow; [done|].
    specialize (Honly e eq_refl). congruence.
  - destruct (events_data _) as [data|]; [|done]. split; [|done].
    intros Hthrow. exfalso.
    pose proof (only_TypeError_page_performance data
                  (GetRumPagePerformance.metricNames performance)) as Honly.
    destruct (page_performance _ _) as [results|e]; simpl in Hthrow; [done|].
    specialize (Honly e eq_refl). congruence.
  - by intros ->.
  - by intros ->.
  - by intros ->.
  - by intros ->.
  - intros ->. by eexists.
Qed.

(** ** Examples *)

(** Scenario 7 of the specification, in every engine. *)
Lemma three_events_counts `{RT : Runtime} :
  grouped_event_count three_events "geo.country" = Normal {[ "US" := 1; "FR" := 1 ]}.
Proof. reflexivity. Qed.

(** Scenario 8 of the specification, in every engine. *)
Lemma three_load_times `{RT : Runtime} :
  page_performance
    [timed_event 10 (VNumber 100); timed_event 20 (VNumber 200); timed_event 30 (VNumber 300)]
    ["view.load_time"]
  = Normal {[ "view.load_time" := {| avg := 200; min := 100; max := 300; count := 3 |} ]}.
Proof. reflexivity. Qed.

(** A numeric-looking string is no sample. *)
Lemma string_load_time_excluded `{RT : Runtime} :
  page_performance [timed_event 10 (VString "42"); timed_event 20 (VBool true)]
    ["view.load_time"]
  = Normal {[ "view.load_time" := {| avg := 0; min := 0; max := 0; count := 0 |} ]}.
Proof. reflexivity. Qed.

Lemma grouped_event_count_distinct_sessions_witness :
  @grouped_event_count example_runtime five_events "geo.country"
    = Normal {[ "US" := 3; "FR" := 1 ]} ∧
  ((∃ ids, @distinct_sessions_of_group example_runtime five_events "geo.country" "US" ids ∧
           length ids = 3) ∧
   (∀ ids, @distinct_sessions_of_group example_runtime five_events "geo.country" "US" ids →
           length ids = 3)) ∧
  (∀ counts,
     @grouped_event_count example_runtime
        [view_event 10 "US" (VString "s1"); view_event 30 "US" (VString "s1")] "geo.country"
       = Normal counts →
     counts !! "US" = Some 1).
Proof.
  assert (@grouped_event_count example_runtime five_events "geo.country"
          = Normal {[ "US" := 3; "FR" := 1 ]}) as Hfive by reflexivity.
  split; [exact Hfive|split].
  - apply (proj1 (@grouped_event_count_distinct_sessions example_runtime
                    five_events "geo.country" {[ "US" := 3; "FR" := 1 ]} Hfive) "US" 3).
    reflexivity.
  - intros counts Htwo.
    apply (proj2 (@grouped_event_count_distinct_sessions example_runtime
                    [view_event 10 "US" (VString "s1"); view_event 30 "US" (VString "s1")]
                    "geo.country" counts Htwo)
             (view_event 10 "US" (VString "s1")) (view_event 30 "US" (VString "s1"))
             "US" (VString "s1") (VString "s1") eq_refl).
    + split; [reflexivity|]. eexists. split; reflexivity.
    + split; [reflexivity|]. eexists. split; reflexivity.
    + eexists. split_and!; reflexivity.
    + eexists. split_and!; reflexivity.
    + reflexivity.
Defined.

Lemma grouped_event_count_group_key_witness :
  let event := view_event 30 "FR" (VString "s2") in
  let result := {| value_of := VString "FR"; found := true |} in
  usable event ∧
  @getValueByPath example_runtime (optional_attributes event) (split "." "geo.country") 0
    = Normal result ∧
  @groupValue_of example_runtime (optional_attributes event) "geo.country" = Normal "FR" ∧
  ∃ key n,
    @js_String example_runtime (VString "FR") = Normal key ∧
    ({[ "US" := 1; "FR" := 1 ]} : gmap string nat) !! key = Some n ∧
    (∀ id, @carries example_runtime id event → 0 < n).
Proof.
  intros event result.
  assert (usable event) as Huse by reflexivity.
  destruct (@grouped_event_count_group_key example_runtime "geo.country" event result
              Huse eq_refl) as [Hgroup Hfiled].
  split_and!; [done|reflexivity|exact Hgroup|].
  assert (@grouped_event_count example_runtime three_events "geo.country"
          = Normal {[ "US" := 1; "FR" := 1 ]}) as Hrun by reflexivity.
  apply (Hfiled three_events {[ "US" := 1; "FR" := 1 ]} Hrun).
  do 2 right. left.
Defined.

Lemma grouped_event_count_zero_witness :
  @grouped_event_count example_runtime [sessionless_event] "geo.country"
    = Normal {[ "US" := 0 ]} ∧
  ({[ "US" := 0 ]} : gmap string nat) !! "US" = Some 0.
Proof.
  split; [reflexivity|].
  apply (@grouped_event_count_zero example_runtime [sessionless_event] "geo.country"
           {[ "US" := 0 ]} "US" eq_refl).
  - exists sessionless_event. split; [by left|]. by split.
  - intros e id He _ [Hid Htrue].
    apply list_elem_of_singleton in He as ->.
    vm_compute in Hid. inversion Hid as [Hundefined]. subst id. discriminate Htrue.
Defined.

Lemma falsy_session_id_not_counted_witness :
  let event := view_event 40 "US" (VString "") in
  @session_id example_runtime (optional_attributes event) = Normal (VString "") ∧
  ToBoolean (VString "") = false ∧
  ∃ counts',
    @grouped_event_count example_runtime three_events "geo.country" = Normal counts' ∧
    ∀ k, default 0 (({[ "US" := 1; "FR" := 1 ]} : gmap string nat) !! k)
         = default 0 (counts' !! k).
Proof.
  intros event. split_and!; [reflexivity|reflexivity|].
  apply (proj2 (@falsy_session_id_not_counted example_runtime "geo.country" event
                  (VString "") eq_refl eq_refl)
           [view_event 10 "US" (VString "s1")]
           [view_event 20 "US" (VString "s1"); view_event 30 "FR" (VString "s2")]).
  reflexivity.
Defined.

Lemma series_holds_only_numbers_witness :
  let metrics := {| own := {[ "view.load_time" := [100; 300]%float ]}; proto := None |} in
  @collected_metrics example_runtime timed_events ["view.load_time"] = Normal metrics ∧
  metrics_get metrics "view.load_time" = Some [100; 300]%float ∧
  [100; 300]%float = @series example_runtime timed_events ["view.load_time"] "view.load_time" ∧
  @samples_of example_runtime ["view.load_time"] "view.load_time"
    (timed_event 20 (VString "42")) = [].
Proof.
  intros metrics.
  pose proof (@series_holds_only_numbers example_runtime timed_events ["view.load_time"]
                metrics "view.load_time" [100; 300]%float eq_refl eq_refl)
    as (Hseries & _ & Hskip).
  split_and!; [reflexivity|reflexivity|exact Hseries|].
  apply Hskip. intros x Hx. vm_compute in Hx. discriminate Hx.
Defined.

Lemma page_performance_summaries_witness :
  let results : gmap string MetricSummary :=
    {[ "view.load_time" := {| avg := 200; min := 100; max := 300; count := 2 |} ]} in
  @page_performance example_runtime timed_events ["view.load_time"] = Normal results ∧
  "view.load_time" ∈ ["view.load_time"] ∧
  results !! "__proto__" = None ∧
  results !! "view.load_time" = Some
    (match @series example_runtime timed_events ["view.load_time"] "view.load_time" with
     | [] => {| avg := 0; min := 0; max := 0; count := 0 |}
     | values =>
         {| avg := sum values / Number_of_nat (length values);
            min := Math_min values;
            max := Math_max values;
            count := length values |}
     end).
Proof.
  intros results.
  assert ("view.load_time" ∈ ["view.load_time"]) as Hin by (by left).
  split_and!; [reflexivity|done|..];
    apply (@page_performance_summaries example_runtime timed_events ["view.load_time"]
             results "view.load_time" eq_refl Hin); discriminate.
Defined.

(** * Further properties *)

(** ** Splitting a dotted path *)

Lemma split_not_nil (sep : ascii) (s : string) : split sep s ≠ [].
Proof.
  destruct s as [|c rest]; simpl; [done|].
  destruct (bool_decide (c = sep)); [done|]. by destruct (split sep rest).
Qed.

Lemma join_cons_char (sep : string) (c : ascii) (piece : string) (rest : list string) :
  join sep (String c piece :: rest) = String c (join sep (piece :: rest)).
Proof. by destruct rest. Qed.

Lemma join_cons (sep piece : string) (rest : list string) :
  rest ≠ [] → join sep (piece :: rest) = piece +:+ sep +:+ join sep rest.
Proof. by destruct rest. Qed.

Lemma split_append (sep : ascii) (s1 s2 : string) :
  split sep (s1 +:+ String sep s2) = split sep s1 ++ split sep s2.
Proof.
  induction s1 as [|c s1 IH]; simpl.
  - by rewrite bool_decide_eq_true_2.
  - destruct (bool_decide (c = sep)); [by rewrite IH|].
    rewrite IH. pose proof (split_not_nil sep s1) as Hne.
    by destruct (split sep s1).
Qed.

Lemma split_no_separator (sep : ascii) (s : string) :
  occurrences sep s = 0 → split sep s = [s].
Proof.
  induction s as [|c s IH]; simpl; [done|].
  destruct (bool_decide (c = sep)); [done|]. simpl. intros Hs. by rewrite IH.
Qed.

(** [split] cuts a string at every separator and nowhere else: joining the
    pieces with the separator gives the string back, no piece holds a
    separator, and there is one piece more than there are separators (so
    never none). *)
Theorem split_pieces (sep : ascii) (s : string) :
  join (String sep EmptyString) (split sep s) = s ∧
  Forall (λ piece, occurrences sep piece = 0) (split sep s) ∧
  length (split sep s) = S (occurrences sep s).
Proof.
  induction s as [|c s (Hjoin & Hfree & Hlen)]; simpl; [by repeat constructor|].
  pose proof (split_not_nil sep s) as Hne.
  destruct (bool_decide_reflect (c = sep)) as [->|Hc].
  - split_and!.
    + rewrite join_cons by done. simpl. by rewrite Hjoin.
    + by constructor.
    + simpl. by rewrite Hlen.
  - destruct (split sep s) as [|piece rest]; [done|]. split_and!.
    + by rewrite join_cons_char, Hjoin.
    + apply Forall_cons in Hfree as [Hpiece Hrest]. constructor; [|done].
      simpl. by rewrite bool_decide_eq_false_2.
    + simpl in *. by rewrite Hlen.
Qed.

(** The other way round: splitting what [join] makes of pieces that hold no
    separator gives the pieces back. *)
Theorem split_join (sep : ascii) (pieces : list string) :
  pieces ≠ [] →
  Forall (λ piece, occurrences sep piece = 0) pieces →
  split sep (join (String sep EmptyString) pieces) = pieces.
Proof.
  intros Hne Hfree. induction pieces as [|piece rest IH]; [done|].
  apply Forall_cons in Hfree as [Hpiece Hrest].
  destruct rest as [|next rest].
  - simpl. by apply split_no_separator.
  - rewrite join_cons by done.
    change (piece +:+ String sep EmptyString +:+ join (String sep EmptyString) (next :: rest))
      with (piece +:+ String sep (join (String sep EmptyString) (next :: rest))).
    rewrite split_append, IH by done. by rewrite split_no_separator.
Qed.

Lemma split_join_witness :
  split "." (join "." ["view"; "load_time"]) = ["view"; "load_time"].
Proof.
  apply (split_join "." ["view"; "load_time"]); [discriminate|].
  by repeat constructor.
Defined.

(** ** Walking a path in two steps *)

Section Walks.
Context `{RT : Runtime}.

Lemma getValueByPath_from_app (obj : value) (path1 path2 : list string) :
  getValueByPath_from obj (path1 ++ path2) =
    r ← getValueByPath_from obj path1;
    if found r then getValueByPath_from (value_of r) path2 else Normal r.
Proof.
  revert obj. induction path1 as [|key path1 IH]; intros obj; simpl; [done|].
  destruct (Get obj key) as [x|e]; simpl; [|done].
  destruct (is_undefined x); [done|apply IH].
Qed.

Lemma reduce_path_app (acc : value) (parts1 parts2 : list string) :
  reduce_path acc (parts1 ++ parts2) = x ← reduce_path acc parts1; reduce_path x parts2.
Proof.
  revert acc. induction parts1 as [|part parts1 IH]; intros acc; simpl; [done|].
  destruct (reduce_step acc part) as [x|e]; simpl; [apply IH|done].
Qed.

Lemma getValueByPath_from_result (obj : value) (rest : list string) (r : resolution) :
  getValueByPath_from obj rest = Normal r →
  (found r = false → value_of r = VNull ∧ rest ≠ []) ∧
  (found r = true → rest ≠ [] → is_undefined (value_of r) = false).
Proof.
  revert obj. induction rest as [|key rest IH]; intros obj Hr; simpl in Hr.
  - inversion Hr; subst. simpl. by split.
  - apply bind_Normal in Hr as (x & Hx & Hr).
    destruct (is_undefined x) eqn:Hundefined.
    + inversion Hr; subst. simpl. by split.
    + destruct (IH x Hr) as [Hnot Hfound]. split.
      * intros Hf. by destruct (Hnot Hf) as [-> _].
      * intros Hf _. destruct rest as [|next rest]; [|by apply Hfound].
        simpl in Hr. by inversion Hr; subst.
Qed.

Lemma getValueByPath_from_reduce (acc : value) (parts : list string) (r : resolution) :
  getValueByPath_from acc parts = Normal r →
  reduce_path acc parts = Normal VUndefined ∨
  (found r = true ∧ reduce_path acc parts = Normal (value_of r)).
Proof.
  revert acc. induction parts as [|part parts IH]; intros acc Hr; simpl in Hr.
  - inversion Hr; subst. by right.
  - apply bind_Normal in Hr as (x & Hx & Hr).
    destruct (ToBoolean acc) eqn:Hacc; [|left; by apply reduce_path_falsy].
    rewrite reduce_path_truthy, Hx by done. simpl.
    destruct x; simpl in Hr; try (by apply IH).
    left. apply reduce_path_undefined.
Qed.

End Walks.

(** Resolving a path that is two paths, one after the other, is resolving
    the first and, when it is found, the second from the value found; when
    the first is not found or throws, so does the whole. *)
Theorem getValueByPath_app `{RT : Runtime} (obj : value) (path1 path2 : list string) :
  getValueByPath obj (path1 ++ path2) 0 =
    r ← getValueByPath obj path1 0;
    if found r then getValueByPath (value_of r) path2 0 else Normal r.
Proof. apply getValueByPath_from_app. Qed.

(** So the group value for [groupBy = first + "." + second] is read in two
    steps: [first] from the attribute map, then [second] from what was
    found there. *)
Theorem getValueByPath_dotted `{RT : Runtime} (attrs : value) (first second : string) :
  getValueByPath attrs (split "." (first +:+ "." +:+ second)) 0 =
    r ← getValueByPath attrs (split "." first) 0;
    if found r then getValueByPath (value_of r) (split "." second) 0 else Normal r.
Proof.
  change (first +:+ "." +:+ second) with (first +:+ String "." second).
  rewrite split_append. apply getValueByPath_from_app.
Qed.

(** What [getValueByPath] returns, from any [index]: a result that is not
    found has the value [null] and comes from a segment that was read; a
    result that is found after a segment was read is never [undefined]. *)
Theorem getValueByPath_result `{RT : Runtime}
    (obj : value) (path : list string) (index : nat) (r : resolution) :
  getValueByPath obj path index = Normal r →
  (found r = false → value_of r = VNull ∧ index < length path) ∧
  (found r = true → index < length path → is_undefined (value_of r) = false).
Proof.
  unfold getValueByPath. intros Hr.
  destruct (getValueByPath_from_result _ _ _ Hr) as [Hnot Hfound].
  assert (drop index path ≠ [] ↔ index < length path) as Hdrop.
  { rewrite <- length_zero_iff_nil, length_drop. lia. }
  split.
  - intros Hf. destruct (Hnot Hf) as [Hnull Hrest]. split; [done|by apply Hdrop].
  - intros Hf Hindex. apply Hfound; [done|by apply Hdrop].
Qed.

Lemma getValueByPath_result_witness :
  let r := {| value_of := VNull; found := false |} in
  @getValueByPath example_runtime (VObject 1 [("a", VString "x")]) ["a"; "b"; "c"] 1
    = Normal r ∧
  value_of r = VNull ∧ 1 < length ["a"; "b"; "c"].
Proof.
  intros r. split; [reflexivity|].
  by apply (proj1 (@getValueByPath_result example_runtime
                     (VObject 1 [("a", VString "x")]) ["a"; "b"; "c"] 1 r eq_refl)).
Defined.

(** Whenever [getValueByPath] returns, the reducer of
    [get_rum_page_performance] returns too, for the same map and path: with
    [undefined], or with the value that [getValueByPath] found. *)
Theorem reduce_path_below_getValueByPath `{RT : Runtime}
    (attrs : value) (path : list string) (r : resolution) :
  getValueByPath attrs path 0 = Normal r →
  reduce_path attrs path = Normal VUndefined ∨
  (found r = true ∧ reduce_path attrs path = Normal (value_of r)).
Proof. apply getValueByPath_from_reduce. Qed.

Lemma reduce_path_below_getValueByPath_witness :
  let attrs := VObject 1 [("view", VObject 2 [("load_time", VNumber 100)])] in
  @reduce_path example_runtime attrs ["view"; "missing"] = Normal VUndefined ∨
  (false = true ∧ @reduce_path example_runtime attrs ["view"; "missing"] = Normal VNull).
Proof.
  intros attrs.
  apply (@reduce_path_below_getValueByPath example_runtime attrs ["view"; "missing"]
           {| value_of := VNull; found := false |}).
  reflexivity.
Defined.

(** The reducer never reads a property of a falsy value: once a part of the
    path has led to [null], [0], [""], [false], [NaN] or [undefined] and
    parts remain, it yields [undefined] (where [getValueByPath] goes on
    reading, and throws on [null]). *)
Theorem reduce_path_stops_at_falsy `{RT : Runtime}
    (attrs v : value) (parts more : list string) (part : string) :
  reduce_path attrs parts = Normal v →
  ToBoolean v = false →
  reduce_path attrs (parts ++ part :: more) = Normal VUndefined.
Proof.
  intros Hv Hfalsy. rewrite reduce_path_app, Hv. simpl.
  by apply reduce_path_falsy.
Qed.

Lemma reduce_path_stops_at_falsy_witness :
  @reduce_path example_runtime (VObject 1 [("a", VNull)]) (["a"] ++ "b" :: ["c"])
    = Normal VUndefined.
Proof.
  apply (@reduce_path_stops_at_falsy example_runtime (VObject 1 [("a", VNull)]) VNull
           ["a"] ["c"] "b"); reflexivity.
Defined.

(** ** Grouped counts and the events they are made of *)

Section CountsAndEvents.
Context `{RT : Runtime}.
Variable groupBy : string.

Lemma count_event_countable (sessions : gmap string (list value)) (event : RUMEvent) :
  countable groupBy event ↔ ∃ sessions', count_event groupBy sessions event = Normal sessions'.
Proof.
  split.
  - intros Hcountable. destruct (ToBoolean (optional_attributes event)) eqn:Huse.
    + destruct (Hcountable Huse) as [[key Hkey] [id Hid]].
      rewrite (count_event_file groupBy sessions event key id); [by eexists|done..].
    + rewrite count_event_skip; [by eexists|]. unfold usable. congruence.
  - intros [sessions' Hstep] Huse.
    apply count_event_Normal in Hstep as [[Hskip _]|(key & id & [_ Hkey] & Hid & _)];
      [done|]. split; by eexists.
Qed.

Lemma session_sets_countable (data : list RUMEvent) :
  (∃ sessions, session_sets data groupBy = Normal sessions) ↔
  ∀ e, e ∈ data → countable groupBy e.
Proof.
  unfold session_sets. generalize (∅ : gmap string (list value)) as start.
  induction data as [|event data IH]; intros start; simpl.
  - split; [|by eexists]. intros _ e He. by apply elem_of_nil in He.
  - split.
    + intros [sessions Hrun]. apply bind_Normal in Hrun as (next & Hstep & Hrun).
      intros e He. apply elem_of_cons in He as [->|He].
      * apply (count_event_countable start). by eexists.
      * apply (IH next); [by eexists|done].
    + intros Hall.
      destruct (proj1 (count_event_countable start event)) as [next ->];
        [apply Hall; by left|]. simpl.
      apply IH. intros e He. apply Hall. by right.
Qed.

Lemma lists_sessions_events (data data' : list RUMEvent) (key : string) (ids : list value) :
  (∀ e, in_group groupBy key e → (e ∈ data ↔ e ∈ data')) →
  lists_sessions data groupBy key ids → lists_sessions data' groupBy key ids.
Proof.
  intros Hsame (Hdistinct & Hsound & Hcomplete). split_and!; [done| |].
  - intros x Hx. destruct (Hsound x Hx) as (e & He & Hin & Hcarries).
    exists e. split_and!; [by apply Hsame|done..].
  - intros e id He Hin. apply Hcomplete; [by apply Hsame|done].
Qed.

Lemma sessions_inv_lists (data : list RUMEvent) (sessions : gmap string (list value))
    (key : string) (set : list value) :
  sessions_inv groupBy data sessions → sessions !! key = Some set →
  lists_sessions data groupBy key set.
Proof.
  intros Hinv Hset. split_and!.
  - by eapply inv_distinct.
  - intros x. by eapply inv_sound.
  - intros e id. by eapply inv_complete.
Qed.

End CountsAndEvents.

(** [get_rum_grouped_event_count] computes its counts exactly when its loop
    can take its turn for every event: for each usable event the group
    value can be computed (the path meets no [null], [String] returns) and
    the session identifier can be read. *)
Theorem grouped_event_count_returns_iff `{RT : Runtime}
    (data : list RUMEvent) (groupBy : string) :
  (∃ counts, grouped_event_count data groupBy = Normal counts) ↔
  ∀ e, e ∈ data → countable groupBy e.
Proof.
  rewrite <- session_sets_countable. unfold grouped_event_count. split.
  - intros [counts Hrun]. apply bind_Normal in Hrun as (sessions & Hrun & _).
    by eexists.
  - intros [sessions ->]. by eexists.
Qed.

(** The result has a key for the group value of every usable event and no
    other key. *)
Theorem grouped_event_count_keys `{RT : Runtime}
    (data : list RUMEvent) (groupBy : string) (counts : gmap string nat) (key : string) :
  grouped_event_count data groupBy = Normal counts →
  is_Some (counts !! key) ↔ ∃ e, e ∈ data ∧ in_group groupBy key e.
Proof.
  intros Hrun. apply grouped_event_count_Normal in Hrun as (sessions & _ & Hinv & ->).
  rewrite lookup_fmap, fmap_is_Some. by apply inv_keys.
Qed.

Lemma grouped_event_count_keys_witness :
  is_Some (({[ "US" := 1; "FR" := 1 ]} : gmap string nat) !! "FR") ↔
  ∃ e, e ∈ three_events ∧ @in_group example_runtime "geo.country" "FR" e.
Proof.
  assert (@grouped_event_count example_runtime three_events "geo.country"
          = Normal {[ "US" := 1; "FR" := 1 ]}) as Hrun by reflexivity.
  exact (@grouped_event_count_keys example_runtime three_events "geo.country"
           {[ "US" := 1; "FR" := 1 ]} "FR" Hrun).
Defined.

(** The counts depend only on which events there are, not on their order or
    on how often an event is repeated: when the handler returns counts for
    a list of events, it returns the same counts for every list with the
    same events. *)
Theorem grouped_event_count_same_events `{RT : Runtime}
    (data data' : list RUMEvent) (groupBy : string) (counts : gmap string nat) :
  (∀ e, e ∈ data ↔ e ∈ data') →
  grouped_event_count data groupBy = Normal counts →
  grouped_event_count data' groupBy = Normal counts.
Proof.
  intros Hsame Hrun.
  assert (∃ sessions', session_sets data' groupBy = Normal sessions') as [sessions' Hrun'].
  { apply session_sets_countable. intros e He.
    apply (proj1 (session_sets_countable groupBy data)); [|by apply Hsame].
    apply grouped_event_count_Normal in Hrun as (sessions & Hsessions & _). by eexists. }
  apply grouped_event_count_Normal in Hrun as (sessions & _ & Hinv & ->).
  pose proof (session_sets_inv groupBy data' sessions' Hrun') as Hinv'.
  unfold grouped_event_count. rewrite Hrun'. simpl. f_equal.
  apply map_eq. intros key. rewrite !lookup_fmap.
  destruct (sessions !! key) as [set|] eqn:Hset,
           (sessions' !! key) as [set'|] eqn:Hset'; simpl; [|exfalso..|done].
  - f_equal. symmetry. apply (lists_sessions_length data groupBy key).
    + by eapply sessions_inv_lists.
    + apply (lists_sessions_events groupBy data' data); [intros e _; by rewrite Hsame|].
      by eapply sessions_inv_lists.
  - assert (is_Some (sessions' !! key)) as [? ?]; [|congruence].
    apply (inv_keys _ _ _ Hinv').
    destruct (proj1 (inv_keys _ _ _ Hinv key)) as (e & He & Hin); [by eexists|].
    exists e. split; [by apply Hsame|done].
  - assert (is_Some (sessions !! key)) as [? ?]; [|congruence].
    apply (inv_keys _ _ _ Hinv).
    destruct (proj1 (inv_keys _ _ _ Hinv' key)) as (e & He & Hin); [by eexists|].
    exists e. split; [by apply Hsame|done].
Qed.

Lemma grouped_event_count_same_events_witness :
  @grouped_event_count example_runtime (reverse three_events ++ three_events) "geo.country"
    = Normal {[ "US" := 1; "FR" := 1 ]}.
Proof.
  apply (@grouped_event_count_same_events example_runtime
           three_events (reverse three_events ++ three_events) "geo.country").
  - intros e. rewrite elem_of_app, elem_of_reverse. tauto.
  - reflexivity.
Defined.

(** More events never lower a count: when every event of [data] is among
    those of [data'], every key of the counts over [data] is a key of the
    counts over [data'], with a count that is no less. *)
Theorem grouped_event_count_monotone `{RT : Runtime}
    (data data' : list RUMEvent) (groupBy : string) (counts counts' : gmap string nat)
    (key : string) (n : nat) :
  (∀ e, e ∈ data → e ∈ data') →
  grouped_event_count data groupBy = Normal counts →
  grouped_event_count data' groupBy = Normal counts' →
  counts !! key = Some n →
  ∃ n', counts' !! key = Some n' ∧ n ≤ n'.
Proof.
  intros Hsub Hrun Hrun'.
  apply grouped_event_count_Normal in Hrun as (sessions & _ & Hinv & ->).
  apply grouped_event_count_Normal in Hrun' as (sessions' & _ & Hinv' & ->).
  rewrite !lookup_fmap.
  destruct (sessions !! key) as [set|] eqn:Hset; [|done]. intros [= <-].
  assert (is_Some (sessions' !! key)) as [set' Hset'].
  { apply (inv_keys _ _ _ Hinv').
    destruct (proj1 (inv_keys _ _ _ Hinv key)) as (e & He & Hin); [by eexists|].
    exists e. split; [by apply Hsub|done]. }
  rewrite Hset'. exists (length set'). split; [done|].
  apply distinct_length_le; [exact (inv_distinct _ _ _ Hinv key set Hset)|].
  intros x Hx. destruct (inv_sound _ _ _ Hinv key set x Hset Hx) as (e & He & Hin & Hc).
  exact (inv_complete _ _ _ Hinv' key set' e x Hset' (Hsub e He) Hin Hc).
Qed.

Lemma grouped_event_count_monotone_witness :
  ∃ n', ({[ "US" := 1; "FR" := 1 ]} : gmap string nat) !! "US" = Some n' ∧ 0 ≤ n'.
Proof.
  assert (@grouped_event_count example_runtime [sessionless_event] "geo.country"
          = Normal {[ "US" := 0 ]}) as Hrun by reflexivity.
  assert (@grouped_event_count example_runtime (sessionless_event :: three_events)
            "geo.country" = Normal {[ "US" := 1; "FR" := 1 ]}) as Hrun' by reflexivity.
  apply (@grouped_event_count_monotone example_runtime
           [sessionless_event] (sessionless_event :: three_events) "geo.country"
           {[ "US" := 0 ]} {[ "US" := 1; "FR" := 1 ]} "US" 0);
    [|exact Hrun|exact Hrun'|reflexivity].
  intros e He. apply list_elem_of_singleton in He as ->. by left.
Defined.

Lemma omap_length_le {A B : Type} (f : A → option B) (l : list A) :
  length (omap f l) ≤ length l.
Proof.
  induction l as [|x l IH]; csimpl; [done|]. destruct (f x); simpl; lia.
Qed.

(** No count is above the number of events. *)
Theorem grouped_event_count_bound `{RT : Runtime}
    (data : list RUMEvent) (groupBy : string) (counts : gmap string nat)
    (key : string) (n : nat) :
  grouped_event_count data groupBy = Normal counts →
  counts !! key = Some n →
  n ≤ length data.
Proof.
  intros Hrun. apply grouped_event_count_Normal in Hrun as (sessions & _ & Hinv & ->).
  rewrite lookup_fmap. destruct (sessions !! key) as [set|] eqn:Hset; [|done].
  intros [= <-]. etrans; [|apply (omap_length_le session_id_of)].
  apply distinct_length_le; [exact (inv_distinct _ _ _ Hinv key set Hset)|].
  intros x Hx. destruct (inv_sound _ _ _ Hinv key set x Hset Hx) as (e & He & _ & Hid & _).
  exists x. split; [|apply SameValueZero_refl].
  apply list_elem_of_omap. exists e. split; [done|].
  unfold session_id_of. by rewrite Hid.
Qed.

Lemma grouped_event_count_bound_witness : 1 ≤ length three_events.
Proof.
  assert (@grouped_event_count example_runtime three_events "geo.country"
          = Normal {[ "US" := 1; "FR" := 1 ]}) as Hrun by reflexivity.
  apply (@grouped_event_count_bound example_runtime three_events "geo.country"
           {[ "US" := 1; "FR" := 1 ]} "US" 1 Hrun).
  reflexivity.
Defined.

(** ** Which summaries there are, and what they count *)

Section Summaries.
Context `{RT : Runtime}.

Lemma page_performance_lookup (data : list RUMEvent) (metricNames : list string)
    (results : gmap string MetricSummary) (name : string) :
  page_performance data metricNames = Normal results →
  results !! name =
    if bool_decide (name ∈ metricNames ∧ name ≠ "__proto__")
    then Some (summarize (series data metricNames name)) else None.
Proof.
  unfold page_performance. intros Hrun.
  apply bind_Normal in Hrun as (metrics & Hrun & Hresults).
  inversion Hresults as [Hresults']. clear Hresults.
  apply collected_metrics_spec in Hrun as [Hget Hown]. rewrite lookup_fmap.
  destruct (decide (name = "__proto__")) as [->|Hname].
  - rewrite Hown. by rewrite bool_decide_eq_false_2 by (by intros [_ ?]).
  - rewrite metrics_get_own, Hget by done.
    destruct (bool_decide_reflect (name ∈ metricNames)) as [Hin|Hnotin].
    + by rewrite bool_decide_eq_true_2.
    + by rewrite bool_decide_eq_false_2 by (by intros [? _]).
Qed.

Lemma summarize_count (values : list float) : count (summarize values) = length values.
Proof. unfold summarize. by destruct values. Qed.

Lemma sample_of_yields_number (name : string) (event : RUMEvent) :
  ToBoolean (optional_attributes event) = true →
  length (sample_of (optional_attributes event) name)
    = if yields_number name event then 1 else 0.
Proof.
  intros Huse. unfold sample_of, yields_number. rewrite Huse. simpl.
  destruct (reduce_path _ _) as [v|]; [|done]. by destruct v.
Qed.

Lemma samples_of_length (metricNames : list string) (name : string) (event : RUMEvent) :
  length (samples_of metricNames name event)
    = length (filter (λ metricName, metricName = name) metricNames)
      * (if yields_number name event then 1 else 0).
Proof.
  unfold samples_of. destruct (ToBoolean (optional_attributes event)) eqn:Huse.
  - rewrite <- (sample_of_yields_number name event Huse).
    induction metricNames as [|metricName names IH]; simpl; [done|].
    rewrite length_app, IH, filter_cons.
    destruct (decide (metricName = name)) as [->|Hne].
    + rewrite bool_decide_eq_true_2 by done. simpl. lia.
    + by rewrite bool_decide_eq_false_2 by done.
  - unfold yields_number. rewrite Huse. simpl. lia.
Qed.

Lemma series_length (data : list RUMEvent) (metricNames : list string) (name : string) :
  length (series data metricNames name)
    = length (filter (λ metricName, metricName = name) metricNames)
      * length (List.filter (yields_number name) data).
Proof.
  unfold series. induction data as [|event data IH]; simpl; [lia|].
  rewrite length_app, IH, samples_of_length.
  destruct (yields_number name event); simpl; lia.
Qed.

End Summaries.

(** The result of [get_rum_page_performance] has a summary for each
    requested metric name except ["__proto__"], and for no other name. *)
Theorem page_performance_names `{RT : Runtime}
    (data : list RUMEvent) (metricNames : list string)
    (results : gmap string MetricSummary) (name : string) :
  page_performance data metricNames = Normal results →
  is_Some (results !! name) ↔ name ∈ metricNames ∧ name ≠ "__proto__".
Proof.
  intros Hrun. rewrite (page_performance_lookup data metricNames results name Hrun).
  case_bool_decide as Hname; split; first [done|by eexists|by intros [? ?]].
Qed.

Lemma page_performance_names_witness :
  let results : gmap string MetricSummary :=
    {[ "view.load_time" := {| avg := 200; min := 100; max := 300; count := 2 |} ]} in
  is_Some (results !! "view.load_time") ↔
  "view.load_time" ∈ ["view.load_time"; "__proto__"] ∧ "view.load_time" ≠ "__proto__".
Proof.
  intros results.
  apply (@page_performance_names example_runtime timed_events
           ["view.load_time"; "__proto__"] results "view.load_time").
  reflexivity.
Defined.

(** The [count] of a summary is the number of usable events for which the
    reducer yields a value of type number, times the number of times the
    metric name is requested: a name requested twice counts every sample
    twice. So no count is above that many times the number of events. *)
Theorem page_performance_count `{RT : Runtime}
    (data : list RUMEvent) (metricNames : list string)
    (results : gmap string MetricSummary) (name : string) (summary : MetricSummary) :
  page_performance data metricNames = Normal results →
  results !! name = Some summary →
  count summary
    = length (filter (λ metricName, metricName = name) metricNames)
      * length (List.filter (yields_number name) data) ∧
  count summary
    ≤ length (filter (λ metricName, metricName = name) metricNames) * length data.
Proof.
  intros Hrun. rewrite (page_performance_lookup data metricNames results name Hrun).
  case_bool_decide as Hname; [|done]. intros [= <-].
  rewrite summarize_count, series_length. split; [done|].
  apply Nat.mul_le_mono_l, List.filter_length_le.
Qed.

Lemma page_performance_count_witness :
  let summary := {| avg := 200; min := 100; max := 300; count := 4 |} in
  count summary
    = length (filter (λ metricName, metricName = "view.load_time")
                ["view.load_time"; "view.load_time"])
      * length (List.filter (@yields_number example_runtime "view.load_time") timed_events) ∧
  count summary
    ≤ length (filter (λ metricName, metricName = "view.load_time")
                ["view.load_time"; "view.load_time"]) * length timed_events.
Proof.
  intros summary.
  assert (@page_performance example_runtime timed_events
            ["view.load_time"; "view.load_time"]
          = Normal {[ "view.load_time" := summary ]}) as Hrun by reflexivity.
  apply (@page_performance_count example_runtime timed_events
           ["view.load_time"; "view.load_time"] {[ "view.load_time" := summary ]}
           "view.load_time" summary Hrun).
  reflexivity.
Defined.
